(** * CSP directive editor (getcsp.js): parser, serializer and edit loop

    A shallow embedding of [deserializeCSP], [serializeCSP], [getCSP],
    [editCSP] and [addDirective] of [getcsp.js], together with the part of
    the JavaScript runtime they rest on: strings, [split], [trim], [join],
    [parseInt], [toUpperCase] and the own-property order of plain objects. *)

From Stdlib Require Import List Ascii String ZArith NArith Bool Lia Arith.
From Stdlib Require Import Sorting.Sorted Sorting.Permutation.
Import ListNotations.

(** ** JavaScript strings

    A string is its sequence of code units.  The policy string comes from an
    HTTP header, whose characters are single bytes, so a code unit is an
    8-bit [ascii]; the lines typed at the prompts are taken over the same
    alphabet. *)

Definition jsstr := list ascii.

Definition str (s : string) : jsstr := list_ascii_of_string s.

Definition jsstr_eqb (a b : jsstr) : bool :=
  if list_eq_dec ascii_dec a b then true else false.

Definition code (c : ascii) : N := N_of_ascii c.

Definition SPACE : ascii := ascii_of_N 32.
Definition SEMI : ascii := ascii_of_N 59.

(** [s.split(sep)] for a separator of one code unit: the pieces between the
    occurrences of [sep]; never the empty array. *)
Fixpoint split (sep : ascii) (s : jsstr) : list jsstr :=
  match s with
  | [] => [[]]
  | c :: s' =>
      if Ascii.eqb c sep then [] :: split sep s'
      else match split sep s' with
           | p :: ps => (c :: p) :: ps
           | [] => [[c]]
           end
  end.

(** [a.join(sep)] on an array of strings. *)
Fixpoint join (sep : jsstr) (a : list jsstr) : jsstr :=
  match a with
  | [] => []
  | [x] => x
  | x :: rest => x ++ sep ++ join sep rest
  end.

(** WhiteSpace and LineTerminator code points below 256: TAB, LF, VT, FF,
    CR, SP and NBSP.  These are what [trim] and [parseInt] strip. *)
Definition isWhiteSpace (c : ascii) : bool :=
  let n := code c in
  ((9 <=? n) && (n <=? 13) || (n =? 32) || (n =? 160))%N.

Fixpoint trimStart (s : jsstr) : jsstr :=
  match s with
  | [] => []
  | c :: s' => if isWhiteSpace c then trimStart s' else s
  end.

Definition trimEnd (s : jsstr) : jsstr := rev (trimStart (rev s)).

Definition trim (s : jsstr) : jsstr := trimEnd (trimStart s).

(** Truthiness of a string: [filter((d) => d)] keeps the nonempty ones. *)
Definition truthy (s : jsstr) : bool :=
  match s with [] => false | _ :: _ => true end.

(** ** Numbers and their decimal text *)

Definition digitChar (d : N) : ascii := ascii_of_N (48 + d).

Fixpoint toDigits (fuel : nat) (n : N) (acc : jsstr) : jsstr :=
  match fuel with
  | O => acc
  | S f =>
      let acc' := digitChar (n mod 10) :: acc in
      if (n / 10 =? 0)%N then acc' else toDigits f (n / 10) acc'
  end.

(** [String(n)] for a non-negative integer. *)
Definition Number_toString (n : N) : jsstr :=
  toDigits (S (N.to_nat (N.log2 n))) n [].

(** Value of a digit of the given radix, if the code unit is one. *)
Definition digitValue (radix : N) (c : ascii) : option N :=
  let n := code c in
  let v :=
    if ((48 <=? n) && (n <=? 57))%N then Some (n - 48)%N
    else if ((97 <=? n) && (n <=? 122))%N then Some (n - 87)%N
    else if ((65 <=? n) && (n <=? 90))%N then Some (n - 55)%N
    else None in
  match v with
  | Some d => if (d <? radix)%N then Some d else None
  | None => None
  end.

(** Longest prefix of radix digits, accumulated most significant first;
    [None] when there is no digit at all. *)
Fixpoint digitsPrefix (radix : N) (s : jsstr) (acc : option N) : option N :=
  match s with
  | [] => acc
  | c :: s' =>
      match digitValue radix c with
      | Some d =>
          digitsPrefix radix s'
            (Some (match acc with Some a => a * radix + d | None => d end)%N)
      | None => acc
      end
  end.

(** [parseInt(s)] without a radix argument: leading white space is skipped,
    one sign is read, a [0x]/[0X] prefix selects radix 16, and the longest
    digit prefix is the value; [None] is NaN.  The result is kept exact: the
    program only compares it with an array length, and rounding to a double
    is monotone and exact below 2^53. *)
Definition parseInt (s : jsstr) : option Z :=
  let s1 := trimStart s in
  let '(sign, s2) :=
    match s1 with
    | c :: r =>
        if Ascii.eqb c (ascii_of_N 45) then ((-1)%Z, r)
        else if Ascii.eqb c (ascii_of_N 43) then (1%Z, r)
        else (1%Z, s1)
    | [] => (1%Z, s1)
    end in
  let '(radix, s3) :=
    match s2 with
    | z :: x :: r =>
        if Ascii.eqb z (ascii_of_N 48)
           && (Ascii.eqb x (ascii_of_N 120) || Ascii.eqb x (ascii_of_N 88))
        then (16%N, r) else (10%N, s2)
    | _ => (10%N, s2)
    end in
  match digitsPrefix radix s3 None with
  | Some m => Some (sign * Z.of_N m)%Z
  | None => None
  end.

(** [s.toUpperCase()]: the letters a-z and the Latin-1 letters with an
    upper-case partner below 256 are mapped; the three code units whose
    upper case lies outside this alphabet (U+00B5, U+00DF, U+00FF) are left
    as they are, which no comparison with an ASCII letter can observe. *)
Definition upperChar (c : ascii) : ascii :=
  let n := code c in
  if ((97 <=? n) && (n <=? 122))%N then ascii_of_N (n - 32)
  else if ((224 <=? n) && (n <=? 254) && negb (n =? 247))%N
       then ascii_of_N (n - 32)
  else c.

Definition toUpperCase (s : jsstr) : jsstr := map upperChar s.

(** ** Plain objects used as ordered maps

    [directives] is a plain object whose values are arrays of strings.  It
    is represented by its own properties in the order in which
    [Object.keys] and [Object.entries] report them: first the keys that are
    array indices, in ascending numeric order, then all other keys in the
    order of their creation. *)

Definition JSObject := list (jsstr * list jsstr).

Definition emptyObject : JSObject := [].

(** A key is an array index when it is the canonical decimal text of an
    integer below 2^32 - 1. *)
Definition isArrayIndex (k : jsstr) : option N :=
  match digitsPrefix 10 k None with
  | Some n =>
      if jsstr_eqb (Number_toString n) k && (n <? 4294967295)%N
      then Some n else None
  | None => None
  end.

Definition PROTO : jsstr := str "__proto__".

Definition Object_entries (o : JSObject) : list (jsstr * list jsstr) := o.

Definition Object_keys (o : JSObject) : list jsstr := map fst o.

Definition hasOwn (k : jsstr) (o : JSObject) : bool :=
  existsb (fun e => jsstr_eqb k (fst e)) o.

(** [o[k]] for an own key. *)
Fixpoint getProp (k : jsstr) (o : JSObject) : option (list jsstr) :=
  match o with
  | [] => None
  | (k', v') :: o' => if jsstr_eqb k k' then Some v' else getProp k o'
  end.

(** Assignment to an existing own property keeps its place. *)
Fixpoint updateProp (k : jsstr) (v : list jsstr) (o : JSObject) : JSObject :=
  match o with
  | [] => []
  | (k', v') :: o' =>
      if jsstr_eqb k k' then (k', v) :: o' else (k', v') :: updateProp k v o'
  end.

(** A new array-index key goes before the first larger index, or before
    the first key that is not an index. *)
Fixpoint insertIndex (i : N) (k : jsstr) (v : list jsstr) (o : JSObject)
  : JSObject :=
  match o with
  | [] => [(k, v)]
  | (k', v') :: o' =>
      match isArrayIndex k' with
      | Some j =>
          if (i <? j)%N then (k, v) :: o else (k', v') :: insertIndex i k v o'
      | None => (k, v) :: o
      end
  end.

Definition defineProp (k : jsstr) (v : list jsstr) (o : JSObject) : JSObject :=
  match isArrayIndex k with
  | Some i => insertIndex i k v o
  | None => o ++ [(k, v)]
  end.

(** [o[k] = v].  The key [__proto__] is not an own property of a plain
    object: the assignment reaches the accessor inherited from
    [Object.prototype], which changes the prototype (here to the array [v])
    and creates no property. *)
Definition setProp (k : jsstr) (v : list jsstr) (o : JSObject) : JSObject :=
  if jsstr_eqb k PROTO then o
  else if hasOwn k o then updateProp k v o
  else defineProp k v o.

(** ** deserializeCSP *)

(** The clauses: [cspString.split(";").map((d) => d.trim()).filter((d) => d)]. *)
Definition pairs (cspString : jsstr) : list jsstr :=
  filter truthy (map trim (split SEMI cspString)).

(** [const [directive, ...values] = pair.split(" ").map((v) => v.trim())].
    Destructuring an empty array would bind [directive] to [undefined],
    whose property key is the string "undefined". *)
Definition parsePair (pair : jsstr) : jsstr * list jsstr :=
  match map trim (split SPACE pair) with
  | directive :: values => (directive, values)
  | [] => (str "undefined", [])
  end.

Definition deserializeCSP (cspString : jsstr) : JSObject :=
  fold_left
    (fun directives pair =>
       let '(directive, values) := parsePair pair in
       setProp directive values directives)
    (pairs cspString) emptyObject.

(** ** serializeCSP *)

(** The template literal [`${key} ${values.join(" ")}`]. *)
Definition renderEntry (e : jsstr * list jsstr) : jsstr :=
  fst e ++ [SPACE] ++ join [SPACE] (snd e).

Definition serializeCSP (directives : JSObject) : jsstr :=
  join [SEMI; SPACE] (map renderEntry (Object_entries directives)).

(** ** The interactive session

    [rl.question] registers a callback and returns: the program is a chain
    of callbacks on the one [directives] object.  A session is that object
    together with the callback that waits for the next line; every function
    returns the next session and the effects it performed, in order. *)

Inductive Effect : Type :=
| Log (line : jsstr)
| LogError (line : jsstr)
| Question (query : jsstr)
| WriteFile (path content : jsstr)
| Close
| Exit.

Inductive Pending : Type :=
| MENU
| EDIT_VALUE (directive : jsstr)
| ADD_NAME
| TERMINATED.

Record Session : Type := mkSession {
  directives : JSObject;
  pending : Pending
}.

Definition ESC : ascii := ascii_of_N 27.
Definition LF : ascii := ascii_of_N 10.

(** [console.log("\x1b[<n>m%s\x1b[0m", text)]. *)
Definition colored (n : string) (text : jsstr) : jsstr :=
  [ESC] ++ str "[" ++ str n ++ str "m" ++ text ++ [ESC] ++ str "[0m".

Definition showNat (n : nat) : jsstr := Number_toString (N.of_nat n).

Fixpoint entryLines (index : nat) (es : list (jsstr * list jsstr))
  : list Effect :=
  match es with
  | [] => []
  | (directive, values) :: es' =>
      Log (showNat (index + 1) ++ str ": " ++ [ESC] ++ str "[33m" ++ directive
           ++ [ESC] ++ str "[0m - " ++ join [SPACE] values)
      :: entryLines (S index) es'
  end.

Definition menuQuery : jsstr :=
  str "Select a directive number to edit, A to add, P to print, or Q to quit: ".

Definition addQuery : jsstr :=
  str "Enter the new directive name and values (e.g., 'script-src https://example.com'): ".

(** [editCSP(directives)] up to its [rl.question]. *)
Definition editCSP (directives : JSObject) : Session * list Effect :=
  (mkSession directives MENU,
   Log (colored "36" (str "Your CSP has "
                      ++ showNat (List.length (Object_keys directives))
                      ++ str " directives."))
   :: entryLines 0 (Object_entries directives)
   ++ [Log (colored "32" (str "A: Add a new directive"));
       Log (colored "32" (str "P: Print the full CSP string and exit"));
       Log (colored "31" (str "Q: Quit the application"));
       Question menuQuery]).

(** [addDirective(directives)] up to its [rl.question]. *)
Definition addDirective (directives : JSObject) : Session * list Effect :=
  (mkSession directives ADD_NAME, [Question addQuery]).

Definition after (e : Effect) (r : Session * list Effect)
  : Session * list Effect :=
  (fst r, e :: snd r).

Definition editQuery (directives : JSObject) (directive : jsstr) : jsstr :=
  str "Edit the value for " ++ [ESC] ++ str "[33m" ++ directive ++ [ESC]
  ++ str "[0m (current: "
  ++ join [SPACE] (match getProp directive directives with
                   | Some values => values
                   | None => []
                   end)
  ++ str "): ".

(** The callback of [editCSP]'s question. *)
Definition editCSP_answer (directives : JSObject) (answer : jsstr)
  : Session * list Effect :=
  if jsstr_eqb (toUpperCase answer) (str "P") then
    let finalCSP := serializeCSP directives in
    (mkSession directives TERMINATED,
     [Log (LF :: str "Final CSP String (also saved to 'generated_csp.txt'):");
      Log (LF :: str "Final CSP String (copy and paste this line):");
      Log (colored "32" finalCSP);
      WriteFile (str "generated_csp.txt") finalCSP;
      Log (LF :: str "To copy the CSP to your clipboard, run: 'cat ./generated_csp.txt | pbcopy'");
      Close; Exit])
  else if jsstr_eqb (toUpperCase answer) (str "A") then
    addDirective directives
  else if jsstr_eqb (toUpperCase answer) (str "Q") then
    (mkSession directives TERMINATED,
     [Log (str "Exiting the application."); Close; Exit])
  else
    let directiveIndex := option_map (fun n => n - 1)%Z (parseInt answer) in
    let directiveKeys := Object_keys directives in
    let invalid :=
      after (Log (str "Invalid selection. Please try again."))
            (editCSP directives) in
    match directiveIndex with
    | Some i =>
        if ((0 <=? i) && (i <? Z.of_nat (List.length directiveKeys)))%Z then
          let directive := nth (Z.to_nat i) directiveKeys [] in
          (mkSession directives (EDIT_VALUE directive),
           [Question (editQuery directives directive)])
        else invalid
    | None => invalid
    end.

(** The callback of the inner question of [editCSP]. *)
Definition editCSP_newValue (directives : JSObject) (directive newValue : jsstr)
  : Session * list Effect :=
  editCSP (setProp directive (filter truthy (split SPACE newValue)) directives).

(** The callback of [addDirective]'s question. *)
Definition addDirective_newDirective (directives : JSObject)
  (newDirective : jsstr) : Session * list Effect :=
  let invalid :=
    after (Log (str "Invalid directive. Please try again."))
          (addDirective directives) in
  match filter truthy (split SPACE newDirective) with
  | directive :: values =>
      if truthy directive then editCSP (setProp directive values directives)
      else invalid
  | [] => invalid
  end.

(** One line of input, handed to the waiting callback. *)
Definition onLine (s : Session) (line : jsstr) : Session * list Effect :=
  match pending s with
  | MENU => editCSP_answer (directives s) line
  | EDIT_VALUE directive => editCSP_newValue (directives s) directive line
  | ADD_NAME => addDirective_newDirective (directives s) line
  | TERMINATED => (s, [])
  end.

(** A whole script of input lines. *)
Fixpoint run (s : Session) (lines : list jsstr) : Session * list Effect :=
  match lines with
  | [] => (s, [])
  | l :: ls =>
      let '(s1, out1) := onLine s l in
      let '(s2, out2) := run s1 ls in
      (s2, out1 ++ out2)
  end.

(** ** getCSP

    What [fetch] did is an input: it threw, or it gave a response whose
    [content-security-policy] header is present or not. *)

Inductive FetchResult : Type :=
| FetchError (message : jsstr)
| Response (csp : option jsstr).

Definition getCSP (url : jsstr) (r : FetchResult) : JSObject * list Effect :=
  match r with
  | Response (Some csp) =>
      if truthy csp then (deserializeCSP csp, [])
      else (emptyObject,
            [Log (str "No Content Security Policy found for " ++ url)])
  | Response None =>
      (emptyObject, [Log (str "No Content Security Policy found for " ++ url)])
  | FetchError message =>
      (emptyObject, [LogError (str "Error fetching the URL: " ++ message)])
  end.

(** ** Predicates used in the statements *)

Definition TAB : ascii := ascii_of_N 9.

Definition isDigit (c : ascii) : bool :=
  ((48 <=? code c) && (code c <=? 57))%N.

(** A string that does not start with white space. *)
Definition headOk (s : jsstr) : Prop :=
  match s with
  | [] => True
  | c :: _ => isWhiteSpace c = false
  end.

(** A string with no white space at either end. *)
Definition trimmed (s : jsstr) : Prop := headOk s /\ headOk (rev s).

(** What every token of a parsed clause satisfies. *)
Definition tokenOk (t : jsstr) : Prop :=
  trimmed t /\ ~ In SPACE t /\ ~ In SEMI t.

(** A directive name with its values, as the parser can produce them: the
    name and the last token are not empty. *)
Definition goodTokens (toks : list jsstr) : Prop :=
  hd [] toks <> [] /\ last toks [] <> [] /\ Forall tokenOk toks.

(** The order of own property keys: an array index comes after the smaller
    indices only, any other key after whatever was there. *)
Definition keyOrder (k1 k2 : jsstr) : Prop :=
  match isArrayIndex k2 with
  | Some j =>
      match isArrayIndex k1 with
      | Some i => (i < j)%N
      | None => False
      end
  | None => True
  end.

(** The objects this program can build. *)
Definition canonical (o : JSObject) : Prop :=
  StronglySorted keyOrder (Object_keys o)
  /\ NoDup (Object_keys o)
  /\ ~ In PROTO (Object_keys o).

Definition wfObject (o : JSObject) : Prop :=
  canonical o /\ Forall (fun e => goodTokens (fst e :: snd e)) o.

(** The specification's well-formed policy string: nonempty clauses whose
    tokens are separated by single spaces. *)
Definition well_formed (S : jsstr) : bool :=
  forallb
    (fun clause =>
       truthy (trim clause) && forallb truthy (split SPACE (trim clause)))
    (split SEMI S).

(** Splitting into tokens as the specification words it: the maximal runs
    of characters that are not separators, so that no token is empty. *)
Fixpoint tokens (isSep : ascii -> bool) (s : jsstr) : list jsstr :=
  match s with
  | [] => []
  | c :: s' =>
      if isSep c then tokens isSep s'
      else match s' with
           | [] => [[c]]
           | c' :: _ =>
               if isSep c' then [c] :: tokens isSep s'
               else match tokens isSep s' with
                    | t :: ts => (c :: t) :: ts
                    | [] => [[c]]
                    end
           end
  end.

(** Tokens separated by any white space. *)
Definition splitWhitespace (s : jsstr) : list jsstr := tokens isWhiteSpace s.

(** Tokens separated by the space character only. *)
Definition splitSpaces (s : jsstr) : list jsstr :=
  tokens (fun c => Ascii.eqb c SPACE) s.

(** The clauses of a policy string as (name, values) pairs, in input order. *)
Definition clauses (cspString : jsstr) : list (jsstr * list jsstr) :=
  map parsePair (pairs cspString).

(** Specification side: the names of a list in the order of their first
    occurrence. *)
Fixpoint firstOccurrences (names : list jsstr) : list jsstr :=
  match names with
  | [] => []
  | n :: rest =>
      n :: filter (fun m => negb (jsstr_eqb m n)) (firstOccurrences rest)
  end.

(** Specification side: the values of the last clause with the given
    name. *)
Fixpoint lastValues (name : jsstr) (cs : list (jsstr * list jsstr))
  : option (list jsstr) :=
  match cs with
  | [] => None
  | (k, v) :: rest =>
      match lastValues name rest with
      | Some v' => Some v'
      | None => if jsstr_eqb name k then Some v else None
      end
  end.

(** A name that is neither an array index nor [__proto__]. *)
Definition plainName (k : jsstr) : Prop :=
  isArrayIndex k = None /\ k <> PROTO.

(** No name and no value contains the clause separator. *)
Definition semiFree (o : JSObject) : Prop :=
  Forall (fun e => Forall (fun t => ~ In SEMI t) (fst e :: snd e)) o.

(** A session whose pending edit, if any, is for a directive of the set. *)
Definition sessionOk (s : Session) : Prop :=
  semiFree (directives s)
  /\ match pending s with
     | EDIT_VALUE directive => In directive (Object_keys (directives s))
     | _ => True
     end.

(** The case-insensitive command letters of the menu. *)
Definition isCommand (answer : jsstr) : bool :=
  jsstr_eqb (toUpperCase answer) (str "P")
  || jsstr_eqb (toUpperCase answer) (str "A")
  || jsstr_eqb (toUpperCase answer) (str "Q").

(** Two objects with the same names in the same order, whose values agree
    everywhere except possibly at [directive]. *)
Definition sameExceptAt (directive : jsstr) (o o' : JSObject) : Prop :=
  Forall2
    (fun e e' => fst e = fst e' /\ (fst e <> directive -> snd e = snd e'))
    o o'.

(** The clause text of an entry, without the trailing space the template
    leaves behind a directive that has no values. *)
Definition clauseText (e : jsstr * list jsstr) : jsstr :=
  join [SPACE] (fst e :: snd e).

(** The loop of [deserializeCSP], from any object. *)
Definition insertClauses (cs : list (jsstr * list jsstr)) (o : JSObject)
  : JSObject :=
  fold_left (fun directives c => setProp (fst c) (snd c) directives) cs o.

(** ** The entry point

    [process.argv[2]] is [undefined] when no argument is given; [!url] also
    holds for the empty string.  Without a URL the script logs its usage and
    closes the interface; otherwise the menu is shown for what [getCSP]
    resolves to. *)

Definition main (url : option jsstr) (r : FetchResult)
  : option Session * list Effect :=
  match url with
  | Some u =>
      if truthy u then
        let '(directives, out1) := getCSP u r in
        let '(s, out2) := editCSP directives in
        (Some s, out1 ++ out2)
      else (None, [Log (str "Please provide a URL as an argument"); Close])
  | None => (None, [Log (str "Please provide a URL as an argument"); Close])
  end.

(** ** The earlier copy of the script

    The second copy of the script in the repository has the same functions
    word for word, except for the callback of the menu question: on P it
    logs the policy on one line and writes no file, and on P and Q it closes
    the interface and returns instead of leaving the process. *)

Module Part001.

Definition editCSP_answer (directives : JSObject) (answer : jsstr)
  : Session * list Effect :=
  if jsstr_eqb (toUpperCase answer) (str "P") then
    (mkSession directives TERMINATED,
     [Log (str "Final CSP String: " ++ serializeCSP directives); Close])
  else if jsstr_eqb (toUpperCase answer) (str "A") then
    addDirective directives
  else if jsstr_eqb (toUpperCase answer) (str "Q") then
    (mkSession directives TERMINATED,
     [Log (str "Exiting the application."); Close])
  else
    let directiveIndex := option_map (fun n => n - 1)%Z (parseInt answer) in
    let directiveKeys := Object_keys directives in
    let invalid :=
      after (Log (str "Invalid selection. Please try again."))
            (editCSP directives) in
    match directiveIndex with
    | Some i =>
        if ((0 <=? i) && (i <? Z.of_nat (List.length directiveKeys)))%Z then
          let directive := nth (Z.to_nat i) directiveKeys [] in
          (mkSession directives (EDIT_VALUE directive),
           [Question (editQuery directives directive)])
        else invalid
    | None => invalid
    end.

Definition onLine (s : Session) (line : jsstr) : Session * list Effect :=
  match pending s with
  | MENU => editCSP_answer (directives s) line
  | EDIT_VALUE directive => editCSP_newValue (directives s) directive line
  | ADD_NAME => addDirective_newDirective (directives s) line
  | TERMINATED => (s, [])
  end.

Fixpoint run (s : Session) (lines : list jsstr) : Session * list Effect :=
  match lines with
  | [] => (s, [])
  | l :: ls =>
      let '(s1, out1) := onLine s l in
      let '(s2, out2) := run s1 ls in
      (s2, out1 ++ out2)
  end.

End Part001.

(** ** Predicates for the further properties *)

(** A typed line without ';' whose only white space is the space. *)
Definition cleanLine (line : jsstr) : Prop :=
  Forall (fun c => c <> SEMI /\ (isWhiteSpace c = true -> c = SPACE)) line.

(** A session on a directive set of the parser's shape. *)
Definition sessionWf (s : Session) : Prop :=
  wfObject (directives s)
  /\ match pending s with
     | EDIT_VALUE directive => In directive (Object_keys (directives s))
     | _ => True
     end.

(** A session on a directive set with the key order of a plain object. *)
Definition sessionCanonical (s : Session) : Prop :=
  canonical (directives s).


(** The effect is a write to a file. *)
Definition isWrite (e : Effect) : bool :=
  match e with WriteFile _ _ => true | _ => false end.

Definition MINUS : ascii := ascii_of_N 45.

(** The directive that a session waits to edit, if any, is in its set;
    this holds after every step from a menu. *)
Definition pendingOk (s : Session) : Prop :=
  match pending s with
  | EDIT_VALUE directive => In directive (Object_keys (directives s))
  | _ => True
  end.

(** A name that is not an array index. *)
Definition notIndex (k : jsstr) : bool :=
  match isArrayIndex k with Some _ => false | None => true end.

(** A name that is neither an array index nor [__proto__]. *)
Definition ordinary (k : jsstr) : bool :=
  notIndex k && negb (jsstr_eqb k PROTO).

(** * Properties *)

(** ** Strings: equality, [split] and [join] *)

Lemma jsstr_eqb_eq (a b : jsstr) : jsstr_eqb a b = true <-> a = b.
Proof.
  unfold jsstr_eqb. destruct (list_eq_dec ascii_dec a b); split; congruence.
Qed.

Lemma jsstr_eqb_neq (a b : jsstr) : jsstr_eqb a b = false <-> a <> b.
Proof.
  unfold jsstr_eqb. destruct (list_eq_dec ascii_dec a b); split; congruence.
Qed.

Lemma jsstr_eqb_refl (a : jsstr) : jsstr_eqb a a = true.
Proof. now apply jsstr_eqb_eq. Qed.

Lemma jsstr_eqb_sym (a b : jsstr) : jsstr_eqb a b = jsstr_eqb b a.
Proof.
  destruct (jsstr_eqb b a) eqn:E.
  - apply jsstr_eqb_eq in E. subst. apply jsstr_eqb_refl.
  - apply jsstr_eqb_neq in E. apply jsstr_eqb_neq. congruence.
Qed.

Lemma join_cons (sep x : jsstr) (rest : list jsstr) :
  rest <> [] -> join sep (x :: rest) = x ++ sep ++ join sep rest.
Proof. destruct rest; [congruence|reflexivity]. Qed.

Lemma join_snoc (sep x : jsstr) (l : list jsstr) :
  l <> [] -> join sep (l ++ [x]) = join sep l ++ sep ++ x.
Proof.
  induction l as [|y l IH]; intros H; [congruence|].
  destruct l as [|z l].
  - reflexivity.
  - change ((y :: z :: l) ++ [x]) with (y :: ((z :: l) ++ [x])).
    rewrite join_cons by (simpl; discriminate).
    rewrite IH by discriminate.
    rewrite (join_cons sep y (z :: l)) by discriminate.
    now rewrite <- !app_assoc.
Qed.

Section Split.

Variable sep : ascii.

Lemma split_not_nil (s : jsstr) : split sep s <> [].
Proof.
  destruct s as [|c s]; simpl; [discriminate|].
  destruct (Ascii.eqb c sep); [discriminate|].
  destruct (split sep s); discriminate.
Qed.

Lemma split_cons_sep (s : jsstr) :
  split sep (sep :: s) = [] :: split sep s.
Proof. simpl. now rewrite Ascii.eqb_refl. Qed.

Lemma split_cons_other (c : ascii) (s : jsstr) :
  c <> sep ->
  split sep (c :: s) = (c :: hd [] (split sep s)) :: tl (split sep s).
Proof.
  intros Hc. simpl. apply Ascii.eqb_neq in Hc. rewrite Hc.
  destruct (split sep s) eqn:E; [now apply split_not_nil in E|reflexivity].
Qed.

Lemma split_free (s : jsstr) :
  ~ In sep s -> split sep s = [s].
Proof.
  induction s as [|c s IH]; intros H; [reflexivity|].
  rewrite split_cons_other by (intros ->; apply H; now left).
  rewrite IH by (intros Hin; apply H; now right). reflexivity.
Qed.

Lemma split_app (a b : jsstr) :
  ~ In sep a -> split sep (a ++ sep :: b) = a :: split sep b.
Proof.
  induction a as [|c a IH]; intros H; cbn [app].
  - apply split_cons_sep.
  - rewrite split_cons_other by (intros ->; apply H; now left).
    rewrite IH by (intros Hin; apply H; now right). reflexivity.
Qed.

Lemma split_pieces_free (s p : jsstr) :
  In p (split sep s) -> ~ In sep p.
Proof.
  revert p. induction s as [|c s IH]; intros p Hp.
  - simpl in Hp. destruct Hp as [<-|[]]. intros [].
  - destruct (ascii_dec c sep) as [->|Hc].
    + rewrite split_cons_sep in Hp. destruct Hp as [<-|Hp]; [intros []|auto].
    + rewrite split_cons_other in Hp by assumption.
      destruct (split sep s) as [|q qs] eqn:E; [now apply split_not_nil in E|].
      simpl in Hp. destruct Hp as [<-|Hp].
      * intros [Heq|Hin]; [congruence|]. apply (IH q); [now left|assumption].
      * apply IH. now right.
Qed.

Lemma split_pieces_incl (s p : jsstr) (x : ascii) :
  In p (split sep s) -> In x p -> In x s.
Proof.
  revert p. induction s as [|c s IH]; intros p Hp Hx.
  - simpl in Hp. destruct Hp as [<-|[]]. destruct Hx.
  - destruct (ascii_dec c sep) as [->|Hc].
    + rewrite split_cons_sep in Hp. destruct Hp as [<-|Hp]; [destruct Hx|].
      right. eauto.
    + rewrite split_cons_other in Hp by assumption.
      destruct (split sep s) as [|q qs] eqn:E; [now apply split_not_nil in E|].
      simpl in Hp. destruct Hp as [<-|Hp].
      * destruct Hx as [->|Hx]; [now left|]. right. apply (IH q); [now left|assumption].
      * right. apply (IH p); [now right|assumption].
Qed.

Lemma split_snoc_other (c : ascii) (s : jsstr) :
  c <> sep ->
  split sep (s ++ [c])
  = removelast (split sep s) ++ [last (split sep s) [] ++ [c]].
Proof.
  intros Hc. induction s as [|d s IH].
  - simpl. apply Ascii.eqb_neq in Hc. now rewrite Hc.
  - cbn [app]. destruct (ascii_dec d sep) as [->|Hd].
    + rewrite !split_cons_sep, IH.
      destruct (split sep s) eqn:E; [now apply split_not_nil in E|].
      reflexivity.
    + rewrite !split_cons_other, IH by assumption.
      destruct (split sep s) as [|q [|q' qs]] eqn:E;
        [now apply split_not_nil in E| reflexivity | reflexivity].
Qed.

Lemma split_join (l : list jsstr) :
  l <> [] -> Forall (fun p => ~ In sep p) l ->
  split sep (join [sep] l) = l.
Proof.
  induction l as [|x l IH]; intros Hne Hall; [congruence|].
  inversion Hall as [|? ? Hx Hl]; subst.
  destruct l as [|y l].
  - simpl. now apply split_free.
  - rewrite join_cons by discriminate. cbn [app].
    rewrite split_app by assumption. rewrite IH; [reflexivity|discriminate|assumption].
Qed.

End Split.

(** The pieces that [split(";")] finds in the serializer's output. *)
Lemma split_semi_join (pre r : jsstr) (rs : list jsstr) :
  ~ In SEMI pre -> Forall (fun p => ~ In SEMI p) (r :: rs) ->
  split SEMI (pre ++ join [SEMI; SPACE] (r :: rs))
  = (pre ++ r) :: map (cons SPACE) rs.
Proof.
  revert pre r. induction rs as [|r' rs IH]; intros pre r Hpre Hall;
    inversion Hall as [|? ? Hr Hrs]; subst.
  - simpl. apply split_free. intros Hin. apply in_app_or in Hin. tauto.
  - rewrite join_cons by discriminate. cbn [app].
    rewrite app_assoc, split_app
      by (intros Hin; apply in_app_or in Hin; tauto).
    change (SPACE :: join [SEMI; SPACE] (r' :: rs))
      with ([SPACE] ++ join [SEMI; SPACE] (r' :: rs)).
    rewrite IH; [reflexivity| |assumption].
    intros [Heq|[]]. discriminate.
Qed.

(** ** [trim] *)

Lemma space_is_white : isWhiteSpace SPACE = true.
Proof. reflexivity. Qed.

Lemma nonwhite_not_space (c : ascii) : isWhiteSpace c = false -> c <> SPACE.
Proof. intros H ->. discriminate. Qed.

Lemma trimStart_headOk (s : jsstr) : headOk (trimStart s).
Proof.
  induction s as [|c s IH]; simpl; [exact I|].
  destruct (isWhiteSpace c) eqn:E; [assumption|exact E].
Qed.

Lemma trimStart_id (s : jsstr) : headOk s -> trimStart s = s.
Proof. destruct s as [|c s]; simpl; [reflexivity|]. now intros ->. Qed.

Lemma trimStart_white (a s : jsstr) :
  Forall (fun c => isWhiteSpace c = true) a ->
  trimStart (a ++ s) = trimStart s.
Proof.
  induction 1 as [|c a Hc _ IH]; [reflexivity|]. simpl. now rewrite Hc.
Qed.

Lemma trimStart_split (s : jsstr) :
  exists a, s = a ++ trimStart s /\ Forall (fun c => isWhiteSpace c = true) a.
Proof.
  induction s as [|c s [a [Ha Hw]]]; simpl.
  - exists []. now split.
  - destruct (isWhiteSpace c) eqn:E.
    + exists (c :: a). split; [simpl; congruence|now constructor].
    + exists []. now split.
Qed.

Lemma trimEnd_split (s : jsstr) :
  exists b, s = trimEnd s ++ b /\ Forall (fun c => isWhiteSpace c = true) b.
Proof.
  destruct (trimStart_split (rev s)) as [a [Ha Hw]].
  exists (rev a). split.
  - unfold trimEnd. rewrite <- rev_app_distr, <- Ha. now rewrite rev_involutive.
  - apply Forall_rev. assumption.
Qed.

Lemma trimStart_incl (s : jsstr) (x : ascii) : In x (trimStart s) -> In x s.
Proof.
  destruct (trimStart_split s) as [a [Ha _]]. intros H. rewrite Ha.
  apply in_or_app. now right.
Qed.

Lemma trimEnd_incl (s : jsstr) (x : ascii) : In x (trimEnd s) -> In x s.
Proof.
  unfold trimEnd. intros H. apply (proj2 (in_rev _ _)) in H.
  apply trimStart_incl in H. now apply (proj2 (in_rev _ _)).
Qed.

Lemma trim_incl (s : jsstr) (x : ascii) : In x (trim s) -> In x s.
Proof. intros H. apply trimStart_incl. now apply trimEnd_incl. Qed.

(** [trim] removes white space only. *)
Lemma trimStart_keeps (s : jsstr) (x : ascii) :
  isWhiteSpace x = false -> In x s -> In x (trimStart s).
Proof.
  intros Hx Hin. destruct (trimStart_split s) as [a [Ha Hw]].
  rewrite Ha in Hin. apply in_app_or in Hin. destruct Hin as [Hin|Hin]; [|assumption].
  rewrite Forall_forall in Hw. apply Hw in Hin. congruence.
Qed.

Lemma trim_keeps (s : jsstr) (x : ascii) :
  isWhiteSpace x = false -> In x s -> In x (trim s).
Proof.
  intros Hx Hin. unfold trim, trimEnd. apply (proj1 (in_rev _ _)).
  apply trimStart_keeps; [assumption|]. apply (proj1 (in_rev _ _)).
  now apply trimStart_keeps.
Qed.

Lemma headOk_app (s t : jsstr) : s <> [] -> headOk s -> headOk (s ++ t).
Proof. destruct s; [congruence|simpl; auto]. Qed.

Lemma trimEnd_headOk (s : jsstr) : headOk s -> headOk (trimEnd s).
Proof.
  intros H. destruct s as [|c s]; [exact I|]. simpl in H.
  unfold trimEnd. simpl rev.
  destruct (trimStart_split (rev s ++ [c])) as [a [Ha Hw]].
  assert (Hc : In c (trimStart (rev s ++ [c]))).
  { apply trimStart_keeps; [assumption|]. apply in_or_app. right. now left. }
  (* the kept part ends with c *)
  assert (Hlast : exists u, trimStart (rev s ++ [c]) = u ++ [c]).
  { destruct (trimStart (rev s ++ [c])) as [|d t] eqn:E; [destruct Hc|].
    destruct (@exists_last _ (d :: t)) as [u [z Hu]]; [discriminate|].
    rewrite Hu, app_assoc in Ha. apply app_inj_tail in Ha.
    destruct Ha as [_ ->]. now exists u. }
  destruct Hlast as [u ->]. rewrite rev_app_distr. simpl. assumption.
Qed.

Lemma trim_trimmed (s : jsstr) : trimmed (trim s).
Proof.
  split.
  - apply trimEnd_headOk, trimStart_headOk.
  - unfold trim, trimEnd. rewrite rev_involutive. apply trimStart_headOk.
Qed.

Lemma trim_id (s : jsstr) : trimmed s -> trim s = s.
Proof.
  intros [H1 H2]. unfold trim, trimEnd. rewrite (trimStart_id _ H1).
  rewrite (trimStart_id _ H2). apply rev_involutive.
Qed.

(** White space around a trimmed, nonempty string is what [trim] removes. *)
Lemma trim_surround (a x b : jsstr) :
  Forall (fun c => isWhiteSpace c = true) a ->
  Forall (fun c => isWhiteSpace c = true) b ->
  x <> [] -> trimmed x -> trim (a ++ x ++ b) = x.
Proof.
  intros Ha Hb Hx [H1 H2]. unfold trim.
  rewrite trimStart_white by assumption.
  rewrite trimStart_id by now apply headOk_app.
  unfold trimEnd. rewrite rev_app_distr.
  rewrite trimStart_white by now apply Forall_rev.
  rewrite trimStart_id by assumption. apply rev_involutive.
Qed.

Lemma trim_nil_white (s : jsstr) :
  Forall (fun c => isWhiteSpace c = true) s -> trim s = [].
Proof.
  intros H. unfold trim.
  replace (trimStart s) with (@nil ascii); [reflexivity|].
  rewrite <- (app_nil_r s). now rewrite trimStart_white.
Qed.

(** ** Clauses and their tokens *)

Lemma truthy_nonempty (s : jsstr) : truthy s = true <-> s <> [].
Proof. destruct s; simpl; split; congruence. Qed.

Lemma pairs_spec (cspString clause : jsstr) :
  In clause (pairs cspString) ->
  clause <> [] /\ trimmed clause /\ ~ In SEMI clause.
Proof.
  unfold pairs. intros H. apply filter_In in H. destruct H as [H Hne].
  apply in_map_iff in H. destruct H as [piece [<- Hp]].
  split; [now apply truthy_nonempty|]. split; [apply trim_trimmed|].
  intros Hin. apply trim_incl in Hin. now apply split_pieces_free in Hp.
Qed.

Lemma last_map (A B : Type) (f : A -> B) (l : list A) (d : A) :
  last (map f l) (f d) = f (last l d).
Proof.
  induction l as [|x l IH]; [reflexivity|].
  destruct l; [reflexivity|]. exact IH.
Qed.

Lemma last_map_trim (l : list jsstr) :
  last (map trim l) [] = trim (last l []).
Proof. exact (last_map _ _ trim l []). Qed.

Lemma last_map_rev (l : list jsstr) :
  last (map (@rev ascii) l) [] = rev (last l []).
Proof. exact (last_map _ _ (@rev ascii) l []). Qed.

Lemma hd_split_cons (sep c : ascii) (s : jsstr) :
  c <> sep -> In c (hd [] (split sep (c :: s))).
Proof. intros H. rewrite split_cons_other by assumption. now left. Qed.

Lemma last_split_snoc (sep c : ascii) (s : jsstr) :
  c <> sep -> In c (last (split sep (s ++ [c])) []).
Proof.
  intros H. rewrite split_snoc_other by assumption.
  rewrite last_last. apply in_or_app. right. now left.
Qed.

(** The tokens of a clause: none has a space or a separator inside or
    white space at its ends, and the first and the last are not empty. *)
Lemma clause_goodTokens (clause : jsstr) :
  clause <> [] -> trimmed clause -> ~ In SEMI clause ->
  goodTokens (map trim (split SPACE clause)).
Proof.
  intros Hne [Hh Hl] Hsemi. repeat split.
  - destruct clause as [|c s]; [congruence|]. simpl in Hh.
    pose proof (hd_split_cons SPACE c s (nonwhite_not_space _ Hh)) as Hin.
    destruct (split SPACE (c :: s)) as [|p ps]; [destruct Hin|].
    simpl in *. intros E. apply (trim_keeps _ _ Hh) in Hin.
    rewrite E in Hin. destruct Hin.
  - destruct (@exists_last _ clause Hne) as [s [c ->]].
    rewrite rev_app_distr in Hl. simpl in Hl.
    pose proof (last_split_snoc SPACE c s (nonwhite_not_space _ Hl)) as Hin.
    rewrite last_map_trim. intros E. apply (trim_keeps _ _ Hl) in Hin. rewrite E in Hin. destruct Hin.
  - apply Forall_forall. intros t Ht. apply in_map_iff in Ht.
    destruct Ht as [p [<- Hp]]. split; [apply trim_trimmed|]. split.
    + intros Hin. apply trim_incl in Hin. now apply split_pieces_free in Hp.
    + intros Hin. apply trim_incl in Hin.
      apply Hsemi. eapply split_pieces_incl; eassumption.
Qed.

Lemma parsePair_tokens (clause : jsstr) :
  map trim (split SPACE clause) = fst (parsePair clause) :: snd (parsePair clause).
Proof.
  unfold parsePair. destruct (split SPACE clause) eqn:E;
    [now apply split_not_nil in E|reflexivity].
Qed.

Lemma parsePair_good (cspString clause : jsstr) :
  In clause (pairs cspString) ->
  goodTokens (fst (parsePair clause) :: snd (parsePair clause)).
Proof.
  intros H. apply pairs_spec in H. destruct H as [H1 [H2 H3]].
  rewrite <- parsePair_tokens. now apply clause_goodTokens.
Qed.

Lemma renderEntry_clauseText (e : jsstr * list jsstr) :
  renderEntry e
  = clauseText e ++ match snd e with [] => [SPACE] | _ => [] end.
Proof.
  destruct e as [k [|v vs]]; unfold renderEntry, clauseText; simpl fst; simpl snd.
  - reflexivity.
  - rewrite (join_cons [SPACE] k (v :: vs)) by discriminate.
    now rewrite app_nil_r.
Qed.

Lemma join_nonempty (sep : jsstr) (toks : list jsstr) :
  hd [] toks <> [] -> join sep toks <> [].
Proof.
  destruct toks as [|k [|v vs]]; simpl; [congruence|auto|].
  intros H E. apply app_eq_nil in E. tauto.
Qed.

Lemma join_headOk (sep : jsstr) (toks : list jsstr) :
  hd [] toks <> [] -> headOk (hd [] toks) -> headOk (join sep toks).
Proof.
  destruct toks as [|k [|v vs]]; simpl; [auto|auto|].
  intros Hne Hh. now apply headOk_app.
Qed.

Lemma rev_join (sep : jsstr) (toks : list jsstr) :
  rev (join sep toks) = join (rev sep) (rev (map (@rev ascii) toks)).
Proof.
  induction toks as [|k toks IH]; [reflexivity|].
  destruct toks as [|v vs]; [reflexivity|].
  rewrite join_cons by discriminate. rewrite !rev_app_distr, IH.
  assert (E : rev (map (@rev ascii) (k :: v :: vs))
              = rev (map (@rev ascii) (v :: vs)) ++ [rev k]) by reflexivity.
  rewrite E, join_snoc.
  - now rewrite <- app_assoc.
  - cbn [map rev]. intros E0. apply app_eq_nil in E0. destruct E0; discriminate.
Qed.

Lemma hd_rev (A : Type) (l : list A) (d : A) : hd d (rev l) = last l d.
Proof.
  induction l as [|x l IH] using rev_ind; [reflexivity|].
  rewrite rev_app_distr, last_last. reflexivity.
Qed.

Lemma clauseText_trimmed (toks : list jsstr) :
  goodTokens toks -> join [SPACE] toks <> [] /\ trimmed (join [SPACE] toks).
Proof.
  intros [Hhd [Hlast Hall]]. split; [now apply join_nonempty|].
  assert (Hne : toks <> []) by (destruct toks; [simpl in Hhd|]; congruence).
  split.
  - apply join_headOk; [assumption|].
    destruct toks as [|k ?]; [congruence|]. inversion Hall; subst.
    simpl. match goal with H : tokenOk k |- _ => apply H end.
  - rewrite rev_join. apply join_headOk.
    + rewrite hd_rev, last_map_rev. intros E. apply Hlast.
      apply (f_equal (@rev ascii)) in E. now rewrite rev_involutive in E.
    + rewrite hd_rev, last_map_rev.
      destruct (@exists_last _ toks Hne) as [l [t ->]]. rewrite last_last.
      apply Forall_app in Hall. destruct Hall as [_ Ht].
      inversion Ht; subst. match goal with H : tokenOk t |- _ => apply H end.
Qed.

(** Parsing the text of a clause gives its tokens back. *)
Lemma parsePair_clauseText (k : jsstr) (vs : list jsstr) :
  Forall tokenOk (k :: vs) -> parsePair (clauseText (k, vs)) = (k, vs).
Proof.
  intros Hall. unfold parsePair, clauseText. simpl fst; simpl snd.
  rewrite split_join; [|discriminate|].
  - replace (map trim (k :: vs)) with (k :: vs); [reflexivity|].
    symmetry. rewrite <- (map_id (k :: vs)) at 2. apply map_ext_Forall.
    eapply Forall_impl; [|exact Hall]. intros t [Ht _]. now apply trim_id.
  - eapply Forall_impl; [|exact Hall]. intros t [_ [Ht _]]. exact Ht.
Qed.

Lemma clauseText_semiFree (toks : list jsstr) :
  Forall tokenOk toks -> ~ In SEMI (join [SPACE] toks).
Proof.
  induction 1 as [|t toks Ht _ IH]; [intros []|].
  destruct toks as [|u us]; [apply Ht|].
  rewrite join_cons by discriminate. intros Hin.
  apply in_app_or in Hin. destruct Hin as [Hin|Hin]; [now apply Ht in Hin|].
  apply in_app_or in Hin. destruct Hin as [[Hin|[]]|Hin]; [discriminate|tauto].
Qed.

(** The clauses the parser finds in the serializer's output. *)
Lemma pairs_serializeCSP (o : JSObject) :
  Forall (fun e => goodTokens (fst e :: snd e)) o ->
  pairs (serializeCSP o) = map clauseText o.
Proof.
  intros Hall. unfold pairs, serializeCSP, Object_entries.
  assert (Htrim : forall e pre, In e o ->
            Forall (fun c => isWhiteSpace c = true) pre ->
            trim (pre ++ renderEntry e) = clauseText e).
  { intros e pre He Hpre. rewrite Forall_forall in Hall.
    destruct (clauseText_trimmed _ (Hall e He)) as [Hne Htr].
    rewrite renderEntry_clauseText. apply trim_surround; try assumption.
    destruct (snd e); repeat constructor. }
  assert (Hsemi : Forall (fun p => ~ In SEMI p) (map renderEntry o)).
  { apply Forall_forall. intros r Hr. apply in_map_iff in Hr.
    destruct Hr as [e [<- He]]. rewrite Forall_forall in Hall.
    destruct (Hall e He) as [_ [_ Htok]].
    rewrite renderEntry_clauseText. intros Hin. apply in_app_or in Hin.
    destruct Hin as [Hin|Hin]; [now apply clauseText_semiFree in Hin|].
    destruct (snd e); [destruct Hin as [Hin|[]]; discriminate|destruct Hin]. }
  destruct o as [|e o]; [reflexivity|].
  cbn [map] in *.
  rewrite <- (app_nil_l (join _ _)), split_semi_join by (auto; intros []).
  cbn [app map filter].
  rewrite <- (app_nil_l (renderEntry e)), Htrim by (auto; now left).
  destruct (clauseText_trimmed _ (Forall_inv Hall)) as [Hne _].
  apply truthy_nonempty in Hne. unfold clauseText in Hne |- *. rewrite Hne.
  f_equal. rewrite !map_map.
  assert (Hrest : forall l, incl l o ->
            filter truthy (map (fun x => trim (SPACE :: renderEntry x)) l)
            = map (fun x => join [SPACE] (fst x :: snd x)) l).
  { induction l as [|x l IH]; intros Hincl; [reflexivity|].
    cbn [map filter].
    change (SPACE :: renderEntry x) with ([SPACE] ++ renderEntry x).
    rewrite Htrim; [|right; apply Hincl; now left|repeat constructor].
    assert (Hx : In x (e :: o)) by (right; apply Hincl; now left).
    rewrite Forall_forall in Hall.
    destruct (clauseText_trimmed _ (Hall x Hx)) as [Hnx _].
    apply truthy_nonempty in Hnx. unfold clauseText in Hnx |- *. rewrite Hnx.
    f_equal. apply IH. intros y Hy. apply Hincl. now right. }
  apply Hrest. apply incl_refl.
Qed.

(** ** Objects *)

Lemma hasOwn_In (k : jsstr) (o : JSObject) :
  hasOwn k o = true <-> In k (Object_keys o).
Proof.
  unfold hasOwn, Object_keys. rewrite existsb_exists, in_map_iff. split.
  - intros [e [He Hk]]. apply jsstr_eqb_eq in Hk. now exists e.
  - intros [e [Hk He]]. exists e. split; [assumption|]. now apply jsstr_eqb_eq.
Qed.

Lemma hasOwn_not_In (k : jsstr) (o : JSObject) :
  hasOwn k o = false <-> ~ In k (Object_keys o).
Proof.
  rewrite <- hasOwn_In. destruct (hasOwn k o); split; congruence.
Qed.

Lemma keys_updateProp (k : jsstr) (v : list jsstr) (o : JSObject) :
  Object_keys (updateProp k v o) = Object_keys o.
Proof.
  induction o as [|[k' v'] o IH]; [reflexivity|]. simpl.
  destruct (jsstr_eqb k k'); simpl; [reflexivity|]. f_equal. exact IH.
Qed.

Lemma updateProp_sameExceptAt (k : jsstr) (v : list jsstr) (o : JSObject) :
  sameExceptAt k o (updateProp k v o).
Proof.
  assert (Hrefl : forall l : JSObject, sameExceptAt k l l).
  { induction l; constructor; [now split|assumption]. }
  induction o as [|[k' v'] o IH]; [constructor|]. simpl.
  destruct (jsstr_eqb k k') eqn:E; constructor;
    try apply Hrefl; try exact IH; simpl; [|now split].
  apply jsstr_eqb_eq in E. subst. split; [reflexivity|congruence].
Qed.

Lemma isArrayIndex_inj (k k' : jsstr) (i : N) :
  isArrayIndex k = Some i -> isArrayIndex k' = Some i -> k = k'.
Proof.
  unfold isArrayIndex. intros H H'.
  destruct (digitsPrefix 10 k None) as [n|]; [|discriminate].
  destruct (digitsPrefix 10 k' None) as [n'|]; [|discriminate].
  destruct (jsstr_eqb (Number_toString n) k) eqn:E; [|discriminate].
  destruct (jsstr_eqb (Number_toString n') k') eqn:E'; [|discriminate].
  simpl in H, H'.
  destruct (n <? 4294967295)%N; [|discriminate].
  destruct (n' <? 4294967295)%N; [|discriminate].
  apply jsstr_eqb_eq in E, E'. congruence.
Qed.

(** Where a new array-index key lands. *)
Lemma insertIndex_split (i : N) (k : jsstr) (v : list jsstr) (o : JSObject) :
  exists a b, o = a ++ b /\ insertIndex i k v o = a ++ (k, v) :: b.
Proof.
  induction o as [|[k' v'] o [a [b [Ho Hi]]]].
  - exists [], []. now split.
  - simpl. destruct (isArrayIndex k') as [j|].
    + destruct (i <? j)%N.
      * exists [], ((k', v') :: o). now split.
      * exists ((k', v') :: a), b. simpl. split; congruence.
    + exists [], ((k', v') :: o). now split.
Qed.

Lemma defineProp_split (k : jsstr) (v : list jsstr) (o : JSObject) :
  exists a b, o = a ++ b /\ defineProp k v o = a ++ (k, v) :: b.
Proof.
  unfold defineProp. destruct (isArrayIndex k) as [i|].
  - apply insertIndex_split.
  - exists o, []. split; [now rewrite app_nil_r|reflexivity].
Qed.

Lemma keys_app (a b : JSObject) :
  Object_keys (a ++ b) = Object_keys a ++ Object_keys b.
Proof. apply map_app. Qed.

Lemma keyOrder_index (k1 k2 : jsstr) (i j : N) :
  isArrayIndex k1 = Some i -> isArrayIndex k2 = Some j ->
  keyOrder k1 k2 <-> (i < j)%N.
Proof. unfold keyOrder. intros -> ->. reflexivity. Qed.

Lemma keyOrder_plain (k1 k2 : jsstr) :
  isArrayIndex k2 = None -> keyOrder k1 k2.
Proof. unfold keyOrder. now intros ->. Qed.

Lemma keyOrder_trans_index (k k1 k2 : jsstr) (i : N) :
  isArrayIndex k = Some i ->
  (match isArrayIndex k1 with Some j => (i < j)%N | None => True end) ->
  keyOrder k1 k2 -> keyOrder k k2.
Proof.
  unfold keyOrder. intros Hk H1 H2.
  destruct (isArrayIndex k2) as [m|]; [|exact I]. rewrite Hk.
  destruct (isArrayIndex k1) as [j|]; [lia|contradiction].
Qed.

Lemma insertIndex_sorted (i : N) (k : jsstr) (v : list jsstr) (o : JSObject) :
  isArrayIndex k = Some i -> ~ In k (Object_keys o) ->
  StronglySorted keyOrder (Object_keys o) ->
  StronglySorted keyOrder (Object_keys (insertIndex i k v o)).
Proof.
  intros Hk. induction o as [|[k' v'] o IH]; intros Hnew Hs.
  - simpl. repeat constructor.
  - simpl in Hnew, Hs. apply StronglySorted_inv in Hs. destruct Hs as [Hs Hall].
    assert (Hfront : (match isArrayIndex k' with
                      | Some j => (i < j)%N | None => True end) ->
                     StronglySorted keyOrder (k :: k' :: Object_keys o)).
    { intros Hlt. constructor; [now constructor|]. constructor.
      - unfold keyOrder. rewrite Hk. destruct (isArrayIndex k'); [exact Hlt|exact I].
      - eapply Forall_impl; [|exact Hall]. intros y Hy.
        eapply keyOrder_trans_index; eassumption. }
    simpl. destruct (isArrayIndex k') as [j|] eqn:Hk'.
    + destruct (i <? j)%N eqn:Hij.
      * apply Hfront. now apply N.ltb_lt.
      * simpl. constructor; [apply IH; tauto|].
        destruct (insertIndex_split i k v o) as [a [b [Ho ->]]].
        rewrite Ho, keys_app in Hall. apply Forall_app in Hall.
        rewrite keys_app. apply Forall_app. split; [tauto|].
        simpl. constructor; [|tauto].
        apply (keyOrder_index _ _ _ _ Hk' Hk). apply N.ltb_ge in Hij.
        assert (i <> j); [|lia]. intros ->.
        apply Hnew. left. eapply isArrayIndex_inj; eassumption.
    + apply Hfront. exact I.
Qed.

Lemma defineProp_canonical (k : jsstr) (v : list jsstr) (o : JSObject) :
  k <> PROTO -> ~ In k (Object_keys o) -> canonical o ->
  canonical (defineProp k v o).
Proof.
  intros Hp Hnew [Hs [Hnd Hnp]]. split; [|split].
  - unfold defineProp. destruct (isArrayIndex k) as [i|] eqn:Hk.
    + now apply insertIndex_sorted.
    + rewrite keys_app. simpl.
      clear Hnd Hnp Hnew. induction (Object_keys o) as [|x l IH]; simpl.
      * repeat constructor.
      * apply StronglySorted_inv in Hs. destruct Hs as [Hs Hall].
        constructor; [now apply IH|]. apply Forall_app. split; [assumption|].
        constructor; [|constructor]. now apply keyOrder_plain.
  - destruct (defineProp_split k v o) as [a [b [Ho ->]]].
    rewrite Ho, keys_app in Hnd, Hnew. rewrite keys_app. simpl.
    apply (Permutation_NoDup (l := k :: Object_keys a ++ Object_keys b)).
    + apply Permutation_middle.
    + now constructor.
  - destruct (defineProp_split k v o) as [a [b [Ho ->]]].
    rewrite Ho, keys_app in Hnp. rewrite keys_app. simpl.
    intros Hin. apply in_app_or in Hin. destruct Hin as [Hin|[Hin|Hin]].
    + apply Hnp, in_or_app. now left.
    + congruence.
    + apply Hnp, in_or_app. now right.
Qed.

Lemma updateProp_canonical (k : jsstr) (v : list jsstr) (o : JSObject) :
  canonical o -> canonical (updateProp k v o).
Proof. unfold canonical. now rewrite keys_updateProp. Qed.

Lemma updateProp_Forall (P : jsstr * list jsstr -> Prop) (k : jsstr)
  (v : list jsstr) (o : JSObject) :
  (forall k', P (k', v)) -> Forall P o -> Forall P (updateProp k v o).
Proof.
  intros Hv. induction 1 as [|[k' v'] o Hx Ho IH]; [constructor|]. simpl.
  destruct (jsstr_eqb k k'); constructor;
    solve [apply Hv | exact Hx | exact Ho | exact IH].
Qed.

Lemma defineProp_Forall (P : jsstr * list jsstr -> Prop) (k : jsstr)
  (v : list jsstr) (o : JSObject) :
  P (k, v) -> Forall P o -> Forall P (defineProp k v o).
Proof.
  intros Hv Ho. destruct (defineProp_split k v o) as [a [b [E ->]]].
  rewrite E in Ho. apply Forall_app in Ho. apply Forall_app.
  split; [tauto|]. constructor; tauto.
Qed.

Lemma setProp_canonical (k : jsstr) (v : list jsstr) (o : JSObject) :
  canonical o -> canonical (setProp k v o).
Proof.
  intros Ho. unfold setProp. destruct (jsstr_eqb k PROTO) eqn:Ep; [assumption|].
  destruct (hasOwn k o) eqn:Eh.
  - now apply updateProp_canonical.
  - apply defineProp_canonical; [now apply jsstr_eqb_neq| |assumption].
    now apply hasOwn_not_In.
Qed.

Lemma setProp_Forall (P : jsstr * list jsstr -> Prop) (k : jsstr)
  (v : list jsstr) (o : JSObject) :
  (forall k', P (k', v)) -> Forall P o -> Forall P (setProp k v o).
Proof.
  intros Hv Ho. unfold setProp. destruct (jsstr_eqb k PROTO); [assumption|].
  destruct (hasOwn k o).
  - now apply updateProp_Forall.
  - now apply defineProp_Forall.
Qed.

(** Entries of the parser's shape stay so under assignment. *)
Lemma setProp_good (k : jsstr) (v : list jsstr) (o : JSObject) :
  goodTokens (k :: v) ->
  Forall (fun e => goodTokens (fst e :: snd e)) o ->
  Forall (fun e => goodTokens (fst e :: snd e)) (setProp k v o).
Proof.
  intros Hv Ho. unfold setProp. destruct (jsstr_eqb k PROTO); [assumption|].
  destruct (hasOwn k o) eqn:Eh.
  - clear Eh. induction Ho as [|[k' v'] o Hx Ho IH]; [constructor|]. simpl.
    destruct (jsstr_eqb k k') eqn:E; constructor;
      try solve [exact Hx | exact Ho | exact IH].
    apply jsstr_eqb_eq in E. now subst.
  - now apply defineProp_Forall.
Qed.

Lemma setProp_wf (k : jsstr) (v : list jsstr) (o : JSObject) :
  goodTokens (k :: v) -> wfObject o -> wfObject (setProp k v o).
Proof.
  intros Hv [Hc Hg]. split; [now apply setProp_canonical|now apply setProp_good].
Qed.

Lemma emptyObject_wf : wfObject emptyObject.
Proof. repeat constructor. intros []. Qed.

Lemma deserializeCSP_clauses (cspString : jsstr) :
  deserializeCSP cspString = insertClauses (clauses cspString) emptyObject.
Proof.
  unfold deserializeCSP, insertClauses, clauses.
  generalize emptyObject. induction (pairs cspString) as [|p ps IH]; intros o.
  - reflexivity.
  - simpl. rewrite <- IH. destruct (parsePair p). reflexivity.
Qed.

Lemma insertClauses_wf (cs : list (jsstr * list jsstr)) (o : JSObject) :
  Forall (fun c => goodTokens (fst c :: snd c)) cs ->
  wfObject o -> wfObject (insertClauses cs o).
Proof.
  intros Hcs. revert o. induction Hcs as [|c cs Hc _ IH]; intros o Ho.
  - exact Ho.
  - simpl. apply IH. now apply setProp_wf.
Qed.

Lemma clauses_good (cspString : jsstr) :
  Forall (fun c => goodTokens (fst c :: snd c)) (clauses cspString).
Proof.
  unfold clauses. apply Forall_forall. intros c Hc.
  apply in_map_iff in Hc. destruct Hc as [p [<- Hp]].
  eapply parsePair_good; eassumption.
Qed.

(** What the parser returns is always an object of the shape above. *)
Lemma deserializeCSP_wf (cspString : jsstr) : wfObject (deserializeCSP cspString).
Proof.
  rewrite deserializeCSP_clauses.
  apply insertClauses_wf; [apply clauses_good|apply emptyObject_wf].
Qed.

Lemma sorted_app_before (a : list jsstr) (x : jsstr) (b : list jsstr) :
  StronglySorted keyOrder (a ++ x :: b) -> Forall (fun y => keyOrder y x) a.
Proof.
  induction a as [|y a IH]; intros H; [constructor|].
  simpl in H. apply StronglySorted_inv in H. destruct H as [Hs Hall].
  constructor; [|now apply IH].
  apply Forall_app in Hall. destruct Hall as [_ Hall]. now inversion Hall.
Qed.

Lemma insertIndex_end (i : N) (k : jsstr) (v : list jsstr) (o : JSObject) :
  isArrayIndex k = Some i ->
  Forall (fun y => keyOrder y k) (Object_keys o) ->
  insertIndex i k v o = o ++ [(k, v)].
Proof.
  intros Hk. induction o as [|[k' v'] o IH]; intros Hall; [reflexivity|].
  simpl in Hall. inversion Hall as [|? ? Hx Hrest]; subst.
  simpl. unfold keyOrder in Hx. rewrite Hk in Hx.
  destruct (isArrayIndex k') as [j|]; [|contradiction].
  apply N.lt_asymm in Hx. apply N.ltb_nlt in Hx. rewrite Hx.
  now rewrite IH.
Qed.

(** Assigning the entries of an object in their order rebuilds it. *)
Lemma setProp_end (k : jsstr) (v : list jsstr) (o rest : JSObject) :
  canonical (o ++ (k, v) :: rest) -> setProp k v o = o ++ [(k, v)].
Proof.
  intros [Hs [Hnd Hnp]]. rewrite keys_app in Hs, Hnd, Hnp. simpl in Hs, Hnd, Hnp.
  unfold setProp.
  assert (Hp : jsstr_eqb k PROTO = false).
  { apply jsstr_eqb_neq. intros ->. apply Hnp, in_or_app. right. now left. }
  rewrite Hp.
  assert (Hown : hasOwn k o = false).
  { apply hasOwn_not_In. apply NoDup_remove_2 in Hnd. intros Hin.
    apply Hnd, in_or_app. now left. }
  rewrite Hown. unfold defineProp.
  destruct (isArrayIndex k) as [i|] eqn:Hk; [|reflexivity].
  apply insertIndex_end; [assumption|]. eapply sorted_app_before; eassumption.
Qed.

Lemma insertClauses_rebuild (rest o : JSObject) :
  canonical (o ++ rest) -> insertClauses rest o = o ++ rest.
Proof.
  revert o. induction rest as [|[k v] rest IH]; intros o Hc.
  - simpl. now rewrite app_nil_r.
  - simpl. rewrite (setProp_end k v o rest Hc).
    rewrite IH; rewrite <- app_assoc; [reflexivity|exact Hc].
Qed.

Lemma clauses_serializeCSP (o : JSObject) :
  Forall (fun e => goodTokens (fst e :: snd e)) o ->
  clauses (serializeCSP o) = o.
Proof.
  intros Hall. unfold clauses. rewrite pairs_serializeCSP by assumption.
  rewrite map_map. rewrite <- (map_id o) at 2. apply map_ext_Forall.
  eapply Forall_impl; [|exact Hall]. intros [k v] [_ [_ Htok]].
  now apply parsePair_clauseText.
Qed.

(** Serializing and parsing again gives back every object of that shape. *)
Lemma deserialize_serialize (o : JSObject) :
  wfObject o -> deserializeCSP (serializeCSP o) = o.
Proof.
  intros [Hc Hg]. rewrite deserializeCSP_clauses, clauses_serializeCSP by assumption.
  apply (insertClauses_rebuild o emptyObject). exact Hc.
Qed.

(** ** Decimal text and [parseInt] *)

Lemma code_ascii_of_N (n : N) : (n < 256)%N -> code (ascii_of_N n) = n.
Proof. intros H. unfold code. now apply N_ascii_embedding. Qed.

Lemma code_inj (c d : ascii) : code c = code d -> c = d.
Proof.
  unfold code. intros H. rewrite <- (ascii_N_embedding c), <- (ascii_N_embedding d).
  now rewrite H.
Qed.

Lemma digitChar_code (d : N) : (d < 10)%N -> code (digitChar d) = (48 + d)%N.
Proof. intros H. unfold digitChar. apply code_ascii_of_N. lia. Qed.

Lemma digitChar_isDigit (d : N) : (d < 10)%N -> isDigit (digitChar d) = true.
Proof.
  intros H. unfold isDigit. rewrite digitChar_code by assumption.
  apply andb_true_intro. split; apply N.leb_le; lia.
Qed.

Lemma digitValue_digitChar (d : N) :
  (d < 10)%N -> digitValue 10 (digitChar d) = Some d.
Proof.
  intros H. unfold digitValue. rewrite digitChar_code by assumption.
  replace ((48 <=? 48 + d) && (48 + d <=? 57))%N with true.
  - replace (48 + d - 48)%N with d by lia.
    apply N.ltb_lt in H. now rewrite H.
  - symmetry. apply andb_true_intro. split; apply N.leb_le; lia.
Qed.

Lemma isDigit_not_white (c : ascii) : isDigit c = true -> isWhiteSpace c = false.
Proof.
  unfold isDigit, isWhiteSpace. intros H. apply andb_prop in H.
  destruct H as [H1 H2]. apply N.leb_le in H1, H2.
  repeat (apply orb_false_intro || apply andb_false_intro2);
    try (apply N.eqb_neq; lia); try (apply N.leb_gt; lia).
Qed.

Lemma isDigit_neq (c : ascii) (n : N) :
  isDigit c = true -> (n < 48 \/ 57 < n)%N -> (n < 256)%N ->
  Ascii.eqb c (ascii_of_N n) = false.
Proof.
  unfold isDigit. intros H Hn Hlt. apply andb_prop in H.
  destruct H as [H1 H2]. apply N.leb_le in H1, H2.
  apply Ascii.eqb_neq. intros ->. rewrite code_ascii_of_N in H1, H2 by assumption.
  lia.
Qed.

Lemma isDigit_upper (c : ascii) : isDigit c = true -> upperChar c = c.
Proof.
  unfold isDigit, upperChar. intros H. apply andb_prop in H.
  destruct H as [H1 H2]. apply N.leb_le in H1, H2.
  replace (97 <=? code c)%N with false by (symmetry; apply N.leb_gt; lia).
  replace (224 <=? code c)%N with false by (symmetry; apply N.leb_gt; lia).
  reflexivity.
Qed.

Lemma toDigits_digits (fuel : nat) (n : N) (acc : jsstr) :
  Forall (fun c => isDigit c = true) acc ->
  Forall (fun c => isDigit c = true) (toDigits fuel n acc).
Proof.
  revert n acc. induction fuel as [|f IH]; intros n acc Hacc; [assumption|].
  simpl.
  assert (Hd : isDigit (digitChar (n mod 10)) = true).
  { apply digitChar_isDigit. apply N.mod_lt. discriminate. }
  destruct (n / 10 =? 0)%N; [now constructor|]. apply IH. now constructor.
Qed.

Lemma toDigits_nonempty (fuel : nat) (n : N) (acc : jsstr) :
  toDigits (S fuel) n acc <> [].
Proof.
  revert n acc. induction fuel as [|f IH]; intros n acc.
  - simpl. destruct (n / 10 =? 0)%N; discriminate.
  - change (toDigits (S (S f)) n acc)
      with (let acc' := digitChar (n mod 10) :: acc in
            if (n / 10 =? 0)%N then acc' else toDigits (S f) (n / 10) acc').
    simpl. destruct (n / 10 =? 0)%N; [discriminate|apply IH].
Qed.

Lemma Number_toString_digits (n : N) :
  Forall (fun c => isDigit c = true) (Number_toString n).
Proof. apply toDigits_digits. constructor. Qed.

Lemma Number_toString_nonempty (n : N) : Number_toString n <> [].
Proof. apply toDigits_nonempty. Qed.

Lemma div10_zero (n : N) : (n / 10 = 0 -> n mod 10 = n)%N.
Proof.
  intros E. pose proof (N.div_mod' n 10) as H. rewrite E in H.
  rewrite N.mul_0_r, N.add_0_l in H. now symmetry.
Qed.

Lemma div10_recompose (n : N) : (n / 10 * 10 + n mod 10 = n)%N.
Proof.
  pose proof (N.div_mod' n 10) as H. rewrite (N.mul_comm (n / 10) 10).
  now symmetry.
Qed.

Lemma div10_half (n m : N) : (n < 2 * m -> n / 10 < m)%N.
Proof.
  intros H. apply N.Div0.div_lt_upper_bound.
  apply N.lt_le_trans with (2 * m)%N; [assumption|].
  apply N.mul_le_mono_r. discriminate.
Qed.

Lemma digitsPrefix_toDigits (fuel : nat) (n : N) (acc : jsstr) :
  (n / 10 < 2 ^ N.of_nat fuel)%N ->
  digitsPrefix 10 (toDigits (S fuel) n acc) None
  = digitsPrefix 10 acc (Some n).
Proof.
  revert n acc. induction fuel as [|f IH]; intros n acc Hn.
  - change (N.of_nat 0) with 0%N in Hn. rewrite N.pow_0_r in Hn.
    assert (E : (n / 10 = 0)%N) by (apply N.lt_1_r; exact Hn).
    simpl. rewrite E. simpl.
    rewrite digitValue_digitChar by (apply N.mod_lt; discriminate).
    now rewrite div10_zero.
  - change (toDigits (S (S f)) n acc)
      with (let acc' := digitChar (n mod 10) :: acc in
            if (n / 10 =? 0)%N then acc' else toDigits (S f) (n / 10) acc').
    cbv zeta. destruct (n / 10 =? 0)%N eqn:E.
    + apply N.eqb_eq in E. simpl.
      rewrite digitValue_digitChar by (apply N.mod_lt; discriminate).
      now rewrite div10_zero.
    + rewrite IH.
      * simpl. rewrite digitValue_digitChar by (apply N.mod_lt; discriminate).
        now rewrite div10_recompose.
      * rewrite Nnat.Nat2N.inj_succ, N.pow_succ_r' in Hn.
        now apply div10_half.
Qed.

Lemma digitsPrefix_Number_toString (n : N) :
  digitsPrefix 10 (Number_toString n) None = Some n.
Proof.
  unfold Number_toString. rewrite digitsPrefix_toDigits; [reflexivity|].
  rewrite Nnat.N2Nat.id. destruct n as [|p]; [reflexivity|].
  pose proof (N.log2_spec (N.pos p) eq_refl) as [_ H].
  rewrite N.pow_succ_r' in H. now apply div10_half.
Qed.

(** Reading a printed number gives the number. *)
Lemma parseInt_Number_toString (n : N) :
  parseInt (Number_toString n) = Some (Z.of_N n).
Proof.
  pose proof (Number_toString_digits n) as Hd.
  pose proof (Number_toString_nonempty n) as Hne.
  pose proof (digitsPrefix_Number_toString n) as Hv.
  unfold parseInt. destruct (Number_toString n) as [|c s]; [congruence|].
  inversion Hd as [|? ? Hc Hs]; subst.
  simpl trimStart. rewrite (isDigit_not_white c Hc).
  rewrite (isDigit_neq c 45 Hc), (isDigit_neq c 43 Hc) by lia.
  destruct s as [|x r].
  - rewrite Hv. f_equal. lia.
  - inversion Hs as [|? ? Hx Hr]; subst.
    rewrite (isDigit_neq x 120 Hx), (isDigit_neq x 88 Hx) by lia.
    rewrite andb_false_r. rewrite Hv. f_equal. lia.
Qed.

Lemma toUpperCase_digits (s : jsstr) :
  Forall (fun c => isDigit c = true) s -> toUpperCase s = s.
Proof.
  induction 1 as [|c s Hc _ IH]; [reflexivity|].
  simpl. now rewrite isDigit_upper, IH.
Qed.

Lemma digits_not_command (s : jsstr) :
  Forall (fun c => isDigit c = true) s -> isCommand s = false.
Proof.
  intros H. unfold isCommand. rewrite toUpperCase_digits by assumption.
  destruct s as [|c s]; [reflexivity|]. inversion H as [|? ? Hc _]; subst.
  repeat apply orb_false_intro; apply jsstr_eqb_neq; intros E;
    injection E as -> _; discriminate.
Qed.

(** ** Tokens of an input line *)

(** [split(" ").filter((v) => v)] yields the maximal runs of characters
    other than the space. *)
Lemma split_filter_tokens (sep : ascii) (s : jsstr) :
  filter truthy (split sep s) = tokens (fun c => Ascii.eqb c sep) s.
Proof.
  induction s as [|c s IH]; [reflexivity|].
  destruct (ascii_dec c sep) as [->|Hc].
  - rewrite split_cons_sep. cbn [filter truthy tokens].
    now rewrite Ascii.eqb_refl.
  - rewrite split_cons_other by assumption. cbn [filter truthy tokens].
    apply Ascii.eqb_neq in Hc. rewrite Hc.
    destruct s as [|c' s']; [reflexivity|].
    rewrite <- IH. destruct (ascii_dec c' sep) as [->|Hc'].
    + rewrite Ascii.eqb_refl, split_cons_sep. reflexivity.
    + pose proof Hc' as Hn. apply Ascii.eqb_neq in Hn. rewrite Hn.
      rewrite split_cons_other by assumption. reflexivity.
Qed.

Lemma filter_split_spaces (line : jsstr) :
  filter truthy (split SPACE line) = splitSpaces line.
Proof. apply split_filter_tokens. Qed.

Lemma tokens_nonempty (isSep : ascii -> bool) (s : jsstr) :
  Forall (fun t => t <> []) (tokens isSep s).
Proof.
  induction s as [|c s IH]; [constructor|]. cbn [tokens].
  destruct (isSep c); [assumption|].
  destruct s as [|c' s']; [repeat constructor; discriminate|].
  destruct (isSep c'); [constructor; [discriminate|assumption]|].
  destruct (tokens isSep (c' :: s')) as [|t ts];
    [repeat constructor; discriminate|].
  inversion IH; subst. constructor; [discriminate|assumption].
Qed.

(** No token at all means that the line consists of separators only. *)
Lemma tokens_nil (isSep : ascii -> bool) (s : jsstr) :
  tokens isSep s = [] <-> Forall (fun c => isSep c = true) s.
Proof.
  induction s as [|c s IH]; [split; [constructor|reflexivity]|].
  cbn [tokens]. destruct (isSep c) eqn:E.
  - rewrite IH. split; [now constructor|now inversion 1].
  - split; [|inversion 1; congruence].
    destruct s as [|c' s']; [discriminate|].
    destruct (isSep c'); [discriminate|].
    destruct (tokens isSep (c' :: s')); discriminate.
Qed.

Lemma tokens_free (isSep : ascii -> bool) (s t : jsstr) (x : ascii) :
  In t (tokens isSep s) -> In x t -> In x s /\ isSep x = false.
Proof.
  revert t. induction s as [|c s IH]; intros t Ht Hx; [destruct Ht|].
  cbn [tokens] in Ht. destruct (isSep c) eqn:E.
  - destruct (IH t Ht Hx). split; [now right|assumption].
  - destruct s as [|c' s'].
    + destruct Ht as [<-|[]]. destruct Hx as [<-|[]]. split; [now left|assumption].
    + destruct (isSep c') eqn:E'.
      * destruct Ht as [<-|Ht].
        -- destruct Hx as [<-|[]]. split; [now left|assumption].
        -- destruct (IH t Ht Hx). split; [now right|assumption].
      * destruct (tokens isSep (c' :: s')) as [|u us] eqn:Eu.
        -- destruct Ht as [<-|[]]. destruct Hx as [<-|[]].
           split; [now left|assumption].
        -- destruct Ht as [<-|Ht].
           ++ destruct Hx as [<-|Hx]; [split; [now left|assumption]|].
              destruct (IH u (or_introl eq_refl) Hx). split; [now right|assumption].
           ++ destruct (IH t (or_intror Ht) Hx). split; [now right|assumption].
Qed.

(** ** Reading and writing properties *)

Lemma getProp_In (k : jsstr) (o : JSObject) :
  In k (Object_keys o) <-> exists v, getProp k o = Some v.
Proof.
  induction o as [|[k' v'] o IH]; simpl.
  - split; [intros []|intros [v H]; discriminate].
  - destruct (jsstr_eqb k k') eqn:E.
    + apply jsstr_eqb_eq in E. subst. split; [eauto|now left].
    + apply jsstr_eqb_neq in E. rewrite <- IH. split; [intros [H|H]; congruence|now right].
Qed.

Lemma getProp_app (k : jsstr) (a b : JSObject) :
  getProp k (a ++ b)
  = match getProp k a with Some v => Some v | None => getProp k b end.
Proof.
  induction a as [|[k' v'] a IH]; [reflexivity|]. simpl.
  destruct (jsstr_eqb k k'); [reflexivity|exact IH].
Qed.

Lemma getProp_None (k : jsstr) (o : JSObject) :
  ~ In k (Object_keys o) -> getProp k o = None.
Proof.
  intros H. destruct (getProp k o) eqn:E; [|reflexivity].
  exfalso. apply H, getProp_In. eauto.
Qed.

Lemma getProp_updateProp (n k : jsstr) (v : list jsstr) (o : JSObject) :
  In k (Object_keys o) ->
  getProp n (updateProp k v o)
  = if jsstr_eqb n k then Some v else getProp n o.
Proof.
  induction o as [|[k' v'] o IH]; intros Hin; [destruct Hin|].
  simpl. destruct (jsstr_eqb k k') eqn:E.
  - apply jsstr_eqb_eq in E. subst. simpl. now destruct (jsstr_eqb n k').
  - simpl. destruct (jsstr_eqb n k') eqn:E'.
    + apply jsstr_eqb_eq in E'. subst. rewrite jsstr_eqb_sym, E. reflexivity.
    + apply IH. destruct Hin as [Hin|Hin]; [|assumption].
      apply jsstr_eqb_neq in E. simpl in Hin. congruence.
Qed.

Lemma getProp_defineProp (n k : jsstr) (v : list jsstr) (o : JSObject) :
  ~ In k (Object_keys o) ->
  getProp n (defineProp k v o)
  = if jsstr_eqb n k then Some v else getProp n o.
Proof.
  intros Hnew. destruct (defineProp_split k v o) as [a [b [E ->]]].
  subst o. rewrite keys_app in Hnew. rewrite !getProp_app. simpl.
  destruct (jsstr_eqb n k) eqn:En; [|reflexivity].
  apply jsstr_eqb_eq in En. subst.
  rewrite getProp_None; [reflexivity|]. intros H. apply Hnew, in_or_app. now left.
Qed.

(** After [o[k] = v], reading [k] gives [v] and every other key is as
    before. *)
Lemma getProp_setProp (n k : jsstr) (v : list jsstr) (o : JSObject) :
  k <> PROTO ->
  getProp n (setProp k v o) = if jsstr_eqb n k then Some v else getProp n o.
Proof.
  intros Hp. unfold setProp. apply jsstr_eqb_neq in Hp. rewrite Hp.
  destruct (hasOwn k o) eqn:E.
  - apply getProp_updateProp. now apply hasOwn_In.
  - apply getProp_defineProp. now apply hasOwn_not_In.
Qed.

Lemma keys_setProp_plain (k : jsstr) (v : list jsstr) (o : JSObject) :
  plainName k ->
  Object_keys (setProp k v o)
  = if hasOwn k o then Object_keys o else Object_keys o ++ [k].
Proof.
  intros [Hi Hp]. unfold setProp. apply jsstr_eqb_neq in Hp. rewrite Hp.
  destruct (hasOwn k o).
  - apply keys_updateProp.
  - unfold defineProp. rewrite Hi. now rewrite keys_app.
Qed.

Lemma sameExceptAt_refl (k : jsstr) (o : JSObject) : sameExceptAt k o o.
Proof. induction o; constructor; [now split|assumption]. Qed.

Lemma setProp_sameExceptAt (k : jsstr) (v : list jsstr) (o : JSObject) :
  In k (Object_keys o) -> sameExceptAt k o (setProp k v o).
Proof.
  intros Hin. unfold setProp. destruct (jsstr_eqb k PROTO).
  - apply sameExceptAt_refl.
  - apply hasOwn_In in Hin. rewrite Hin. apply updateProp_sameExceptAt.
Qed.

(** ** First occurrences and last values *)

Lemma filter_filter_names (n : jsstr) (acc l : list jsstr) :
  filter (fun m => negb (existsb (jsstr_eqb m) (acc ++ [n]))) l
  = filter (fun m => negb (existsb (jsstr_eqb m) acc))
      (filter (fun m => negb (jsstr_eqb m n)) l).
Proof.
  induction l as [|x l IH]; [reflexivity|]. simpl.
  rewrite existsb_app. simpl. rewrite orb_false_r.
  destruct (jsstr_eqb x n); simpl.
  - rewrite orb_true_r. simpl. exact IH.
  - rewrite orb_false_r. destruct (existsb (jsstr_eqb x) acc); simpl;
      [exact IH|now rewrite IH].
Qed.

Lemma filter_absorb_names (n : jsstr) (acc l : list jsstr) :
  In n acc ->
  filter (fun m => negb (existsb (jsstr_eqb m) acc))
    (filter (fun m => negb (jsstr_eqb m n)) l)
  = filter (fun m => negb (existsb (jsstr_eqb m) acc)) l.
Proof.
  intros Hin. induction l as [|x l IH]; [reflexivity|]. simpl.
  destruct (jsstr_eqb x n) eqn:E; simpl.
  - apply jsstr_eqb_eq in E. subst.
    replace (existsb (jsstr_eqb n) acc) with true; [exact IH|].
    symmetry. apply existsb_exists. exists n. split; [assumption|apply jsstr_eqb_refl].
  - now rewrite IH.
Qed.

Lemma hasOwn_existsb (k : jsstr) (o : JSObject) :
  hasOwn k o = existsb (jsstr_eqb k) (Object_keys o).
Proof.
  unfold hasOwn, Object_keys. induction o as [|e o IH]; [reflexivity|].
  simpl. now rewrite IH.
Qed.

(** With plain names the keys are the names in order of first occurrence. *)
Lemma keys_insertClauses (cs : list (jsstr * list jsstr)) (o : JSObject) :
  Forall (fun c => plainName (fst c)) cs ->
  Object_keys (insertClauses cs o)
  = Object_keys o
    ++ filter (fun m => negb (existsb (jsstr_eqb m) (Object_keys o)))
         (firstOccurrences (map fst cs)).
Proof.
  intros Hcs. revert o. induction Hcs as [|[k v] cs Hk _ IH]; intros o.
  - simpl. now rewrite app_nil_r.
  - simpl. rewrite IH, keys_setProp_plain by exact Hk.
    rewrite hasOwn_existsb. simpl fst.
    destruct (existsb (jsstr_eqb k) (Object_keys o)) eqn:E; simpl.
    + f_equal. symmetry. apply filter_absorb_names.
      apply existsb_exists in E. destruct E as [x [Hx Hkx]].
      apply jsstr_eqb_eq in Hkx. now subst.
    + rewrite <- app_assoc. simpl. f_equal. f_equal. apply filter_filter_names.
Qed.

Lemma getProp_insertClauses (n : jsstr) (cs : list (jsstr * list jsstr))
  (o : JSObject) :
  Forall (fun c => fst c <> PROTO) cs ->
  getProp n (insertClauses cs o)
  = match lastValues n cs with Some v => Some v | None => getProp n o end.
Proof.
  intros Hcs. revert o. induction Hcs as [|[k v] cs Hk _ IH]; intros o.
  - reflexivity.
  - simpl. rewrite IH. destruct (lastValues n cs); [reflexivity|].
    rewrite getProp_setProp by exact Hk. simpl fst.
    now destruct (jsstr_eqb n k).
Qed.

Lemma firstOccurrences_NoDup (names : list jsstr) :
  NoDup (firstOccurrences names).
Proof.
  induction names as [|n names IH]; simpl; constructor.
  - intros Hin. apply filter_In in Hin. destruct Hin as [_ H].
    now rewrite jsstr_eqb_refl in H.
  - now apply NoDup_filter.
Qed.

(** ** The menu *)

Lemma editCSP_session (d : JSObject) : fst (editCSP d) = mkSession d MENU.
Proof. reflexivity. Qed.

Lemma isCommand_false (answer : jsstr) :
  isCommand answer = false ->
  jsstr_eqb (toUpperCase answer) (str "P") = false
  /\ jsstr_eqb (toUpperCase answer) (str "A") = false
  /\ jsstr_eqb (toUpperCase answer) (str "Q") = false.
Proof.
  unfold isCommand. intros H. apply orb_false_elim in H. destruct H as [H HQ].
  apply orb_false_elim in H. tauto.
Qed.

(** The answer of a menu prompt that is not a command letter. *)
Lemma editCSP_answer_number (d : JSObject) (answer : jsstr) :
  isCommand answer = false ->
  editCSP_answer d answer
  = match parseInt answer with
    | Some k =>
        if ((1 <=? k) && (k <=? Z.of_nat (List.length (Object_keys d))))%Z
        then (mkSession d
                (EDIT_VALUE (nth (Z.to_nat (k - 1)) (Object_keys d) [])),
              [Question
                 (editQuery d (nth (Z.to_nat (k - 1)) (Object_keys d) []))])
        else after (Log (str "Invalid selection. Please try again."))
                   (editCSP d)
    | None => after (Log (str "Invalid selection. Please try again."))
                    (editCSP d)
    end.
Proof.
  intros H. apply isCommand_false in H. destruct H as [HP [HA HQ]].
  unfold editCSP_answer. rewrite HP, HA, HQ.
  destruct (parseInt answer) as [k|]; [|reflexivity]. cbn [option_map].
  replace ((0 <=? k - 1) && (k - 1 <? Z.of_nat (List.length (Object_keys d))))%Z
    with ((1 <=? k) && (k <=? Z.of_nat (List.length (Object_keys d))))%Z;
    [reflexivity|].
  apply eq_true_iff_eq. rewrite !andb_true_iff, !Z.leb_le, Z.ltb_lt. lia.
Qed.

Lemma editCSP_answer_pending (d : JSObject) (answer directive : jsstr) :
  pending (fst (editCSP_answer d answer)) = EDIT_VALUE directive ->
  In directive (Object_keys d).
Proof.
  unfold editCSP_answer.
  destruct (jsstr_eqb (toUpperCase answer) (str "P")); [discriminate|].
  destruct (jsstr_eqb (toUpperCase answer) (str "A")); [discriminate|].
  destruct (jsstr_eqb (toUpperCase answer) (str "Q")); [discriminate|].
  destruct (parseInt answer) as [k|]; cbn [option_map]; [|discriminate].
  destruct ((0 <=? k - 1) && (k - 1 <? Z.of_nat (List.length (Object_keys d))))%Z
    eqn:E; [|discriminate].
  cbn [fst pending]. intros [= <-]. apply nth_In.
  apply andb_prop in E. destruct E as [E1 E2].
  apply Z.leb_le in E1. apply Z.ltb_lt in E2. lia.
Qed.

Lemma editCSP_answer_directives (d : JSObject) (answer : jsstr) :
  directives (fst (editCSP_answer d answer)) = d.
Proof.
  unfold editCSP_answer.
  destruct (jsstr_eqb (toUpperCase answer) (str "P")); [reflexivity|].
  destruct (jsstr_eqb (toUpperCase answer) (str "A")); [reflexivity|].
  destruct (jsstr_eqb (toUpperCase answer) (str "Q")); [reflexivity|].
  destruct (option_map _ (parseInt answer)) as [i|]; [|reflexivity].
  destruct ((0 <=? i) && _)%Z; reflexivity.
Qed.

Lemma addDirective_newDirective_tokens (d : JSObject) (line : jsstr) :
  addDirective_newDirective d line
  = match splitSpaces line with
    | name :: values => editCSP (setProp name values d)
    | [] => after (Log (str "Invalid directive. Please try again."))
                  (addDirective d)
    end.
Proof.
  unfold addDirective_newDirective. rewrite filter_split_spaces.
  pose proof (tokens_nonempty (fun c => Ascii.eqb c SPACE) line) as Hne.
  fold (splitSpaces line) in Hne.
  destruct (splitSpaces line) as [|name values]; [reflexivity|].
  inversion Hne as [|? ? Hn _]; subst. apply truthy_nonempty in Hn.
  now rewrite Hn.
Qed.

(** ** Clauses whose tokens are separated by single spaces *)






(** ** The separator invariant *)

Lemma splitSpaces_semiFree (line : jsstr) :
  ~ In SEMI line -> Forall (fun t => ~ In SEMI t) (splitSpaces line).
Proof.
  intros H. apply Forall_forall. intros t Ht Hin.
  apply H. eapply tokens_free; eassumption.
Qed.

Lemma updateProp_semiFree (k : jsstr) (v : list jsstr) (o : JSObject) :
  Forall (fun t => ~ In SEMI t) v -> semiFree o -> semiFree (updateProp k v o).
Proof.
  intros Hv. unfold semiFree.
  induction 1 as [|[k' v'] o Hx Ho IH]; [constructor|]. simpl.
  destruct (jsstr_eqb k k'); constructor; try assumption.
  simpl in Hx |- *. inversion Hx; subst. now constructor.
Qed.

Lemma setProp_semiFree_own (k : jsstr) (v : list jsstr) (o : JSObject) :
  In k (Object_keys o) -> Forall (fun t => ~ In SEMI t) v ->
  semiFree o -> semiFree (setProp k v o).
Proof.
  intros Hin Hv Ho. unfold setProp. destruct (jsstr_eqb k PROTO); [assumption|].
  apply hasOwn_In in Hin. rewrite Hin. now apply updateProp_semiFree.
Qed.

Lemma setProp_semiFree (k : jsstr) (v : list jsstr) (o : JSObject) :
  Forall (fun t => ~ In SEMI t) (k :: v) ->
  semiFree o -> semiFree (setProp k v o).
Proof.
  intros Hv Ho. unfold setProp. destruct (jsstr_eqb k PROTO); [assumption|].
  destruct (hasOwn k o).
  - apply updateProp_semiFree; [now inversion Hv|assumption].
  - now apply defineProp_Forall.
Qed.

Lemma deserializeCSP_semiFree (cspString : jsstr) :
  semiFree (deserializeCSP cspString).
Proof.
  destruct (deserializeCSP_wf cspString) as [_ Hg]. unfold semiFree.
  eapply Forall_impl; [|exact Hg]. intros e [_ [_ Htok]].
  eapply Forall_impl; [|exact Htok]. intros t [_ [_ Ht]]. exact Ht.
Qed.

Lemma onLine_sessionOk (s : Session) (line : jsstr) :
  sessionOk s -> ~ In SEMI line -> sessionOk (fst (onLine s line)).
Proof.
  intros [Hd Hp] Hline. unfold onLine.
  destruct (pending s) as [|directive| |] eqn:Ep.
  - split.
    + now rewrite editCSP_answer_directives.
    + destruct (pending (fst (editCSP_answer (directives s) line))) eqn:E;
        try exact I.
      rewrite editCSP_answer_directives.
      eapply editCSP_answer_pending. exact E.
  - unfold editCSP_newValue. rewrite editCSP_session, filter_split_spaces.
    split; [|exact I]. cbn [directives].
    apply setProp_semiFree_own; try assumption.
    now apply splitSpaces_semiFree.
  - rewrite addDirective_newDirective_tokens.
    pose proof (splitSpaces_semiFree line Hline) as Htok.
    destruct (splitSpaces line) as [|name values].
    + split; [exact Hd|exact I].
    + rewrite editCSP_session. split; [|exact I]. cbn [directives].
      now apply setProp_semiFree.
  - split; [exact Hd|]. cbn [fst]. now rewrite Ep.
Qed.

Lemma run_sessionOk (s : Session) (lines : list jsstr) :
  sessionOk s -> Forall (fun line => ~ In SEMI line) lines ->
  sessionOk (fst (run s lines)).
Proof.
  intros Hs Hlines. revert s Hs.
  induction Hlines as [|l ls Hl _ IH]; intros s Hs; [exact Hs|].
  simpl. pose proof (onLine_sessionOk s l Hs Hl) as H1.
  destruct (onLine s l) as [s1 out1]. specialize (IH s1 H1).
  destruct (run s1 ls) as [s2 out2]. exact IH.
Qed.

Lemma splitSpaces_nil (line : jsstr) :
  splitSpaces line = [] <-> Forall (fun c => c = SPACE) line.
Proof.
  unfold splitSpaces. rewrite tokens_nil. split; intros H;
    (eapply Forall_impl; [|exact H]); intros c Hc; now apply Ascii.eqb_eq.
Qed.

(** ** The program on sample inputs *)

Example parseInt_samples :
  parseInt (str "2") = Some 2%Z
  /\ parseInt (str " 2abc") = Some 2%Z
  /\ parseInt (str "-1") = Some (-1)%Z
  /\ parseInt (str "0x10") = Some 16%Z
  /\ parseInt (str "two") = None
  /\ parseInt [] = None.
Proof. repeat split. Qed.

Example object_key_order :
  Object_keys (deserializeCSP (str "b x; 10 y; 9 z; 01 w; __proto__ v"))
  = [str "9"; str "10"; str "b"; str "01"].
Proof. reflexivity. Qed.

Example blank_clauses_dropped :
  deserializeCSP (str "a 1; ; b 2;") = deserializeCSP (str "a 1; b 2").
Proof. reflexivity. Qed.

Example edit_scenario :
  snd (run (fst (editCSP
                   (deserializeCSP
                      (str "default-src 'self'; img-src 'self' data:"))))
         [str "2"; str "'self' https://cdn.example.com"; str "P"])
  <> []
  /\ serializeCSP
       (directives
          (fst (run (fst (editCSP
                            (deserializeCSP
                               (str "default-src 'self'; img-src 'self' data:"))))
                  [str "2"; str "'self' https://cdn.example.com"; str "P"])))
     = str "default-src 'self'; img-src 'self' https://cdn.example.com".
Proof. split; [vm_compute; discriminate|reflexivity]. Qed.

Example add_scenario :
  serializeCSP
    (directives
       (fst (run (fst (editCSP emptyObject))
               [str "A"; str "frame-ancestors 'none'"; str "P"])))
  = str "frame-ancestors 'none'"
  /\ In (WriteFile (str "generated_csp.txt") (str "frame-ancestors 'none'"))
       (snd (run (fst (editCSP emptyObject))
               [str "A"; str "frame-ancestors 'none'"; str "P"])).
Proof.
  split; [reflexivity|]. vm_compute. do 10 (try (left; reflexivity); right).
  left. reflexivity.
Qed.

(** ** Policies cut at a separator *)

Lemma split_app_sep (sep : ascii) (a b : jsstr) :
  split sep (a ++ sep :: b) = split sep a ++ split sep b.
Proof.
  induction a as [|c a IH]; cbn [app].
  - now rewrite split_cons_sep.
  - destruct (ascii_dec c sep) as [->|Hc].
    + rewrite !split_cons_sep, IH. reflexivity.
    + rewrite !split_cons_other, IH by assumption.
      destruct (split sep a) eqn:E; [now apply split_not_nil in E|reflexivity].
Qed.

Lemma pairs_app (a b : jsstr) : pairs (a ++ SEMI :: b) = pairs a ++ pairs b.
Proof. unfold pairs. now rewrite split_app_sep, map_app, filter_app. Qed.

Lemma clauses_app (a b : jsstr) :
  clauses (a ++ SEMI :: b) = clauses a ++ clauses b.
Proof. unfold clauses. now rewrite pairs_app, map_app. Qed.

Lemma insertClauses_app (cs1 cs2 : list (jsstr * list jsstr)) (o : JSObject) :
  insertClauses (cs1 ++ cs2) o = insertClauses cs2 (insertClauses cs1 o).
Proof. apply fold_left_app. Qed.

Lemma insertClauses_canonical (cs : list (jsstr * list jsstr)) (o : JSObject) :
  canonical o -> canonical (insertClauses cs o).
Proof.
  revert o. induction cs as [|c cs IH]; intros o Ho; [exact Ho|].
  simpl. apply IH. now apply setProp_canonical.
Qed.

Lemma getProp_PROTO (o : JSObject) : canonical o -> getProp PROTO o = None.
Proof. intros [_ [_ H]]. now apply getProp_None. Qed.

Lemma getProp_setProp_any (n k : jsstr) (v : list jsstr) (o : JSObject) :
  n <> PROTO ->
  getProp n (setProp k v o) = if jsstr_eqb n k then Some v else getProp n o.
Proof.
  intros Hn. destruct (jsstr_eqb k PROTO) eqn:Ek.
  - unfold setProp. rewrite Ek. apply jsstr_eqb_eq in Ek. subst k.
    apply jsstr_eqb_neq in Hn. now rewrite Hn.
  - apply getProp_setProp. now apply jsstr_eqb_neq.
Qed.

Lemma getProp_insertClauses_any (n : jsstr) (cs : list (jsstr * list jsstr))
  (o : JSObject) :
  n <> PROTO ->
  getProp n (insertClauses cs o)
  = match lastValues n cs with Some v => Some v | None => getProp n o end.
Proof.
  intros Hn. revert o. induction cs as [|[k v] cs IH]; intros o; [reflexivity|].
  simpl. rewrite IH. destruct (lastValues n cs); [reflexivity|].
  rewrite getProp_setProp_any by assumption. simpl fst.
  now destruct (jsstr_eqb n k).
Qed.

Lemma deserializeCSP_canonical (cspString : jsstr) :
  canonical (deserializeCSP cspString).
Proof. apply deserializeCSP_wf. Qed.

(** ** Blank clauses *)


Lemma pairs_white (w : jsstr) :
  Forall (fun c => isWhiteSpace c = true) w -> pairs w = [].
Proof.
  intros Hw. unfold pairs. rewrite split_free.
  - simpl. now rewrite trim_nil_white.
  - intros Hin. rewrite Forall_forall in Hw. apply Hw in Hin. discriminate.
Qed.




(** ** Command letters *)

Lemma upperChar_cases (c : ascii) :
  upperChar c = c \/ (code (upperChar c) + 32 = code c)%N.
Proof.
  unfold upperChar.
  assert (Hlt : (code c < 256)%N) by apply N_ascii_bounded.
  destruct ((97 <=? code c) && (code c <=? 122))%N eqn:E1.
  - right. apply andb_prop in E1. destruct E1 as [H1 _]. apply N.leb_le in H1.
    rewrite code_ascii_of_N by lia. lia.
  - destruct ((224 <=? code c) && (code c <=? 254)
              && negb (code c =? 247))%N eqn:E2; [|now left].
    right. apply andb_prop in E2. destruct E2 as [E2 _].
    apply andb_prop in E2. destruct E2 as [H1 _]. apply N.leb_le in H1.
    rewrite code_ascii_of_N by lia. lia.
Qed.

Lemma upperChar_letter (c : ascii) (n : N) :
  (65 <= n <= 90)%N ->
  upperChar c = ascii_of_N n <-> c = ascii_of_N n \/ c = ascii_of_N (n + 32).
Proof.
  intros Hn. split.
  - intros H. destruct (upperChar_cases c) as [E|E].
    + left. congruence.
    + right. apply code_inj. rewrite H in E.
      rewrite code_ascii_of_N in E by lia.
      rewrite code_ascii_of_N by lia. lia.
  - intros [->| ->]; unfold upperChar.
    + rewrite code_ascii_of_N by lia.
      replace (97 <=? n)%N with false by (symmetry; apply N.leb_gt; lia).
      replace (224 <=? n)%N with false by (symmetry; apply N.leb_gt; lia).
      reflexivity.
    + rewrite code_ascii_of_N by lia.
      replace ((97 <=? n + 32) && (n + 32 <=? 122))%N with true.
      * f_equal. lia.
      * symmetry. apply andb_true_intro. split; apply N.leb_le; lia.
Qed.

Lemma toUpperCase_letter (s : jsstr) (n : N) :
  (65 <= n <= 90)%N ->
  jsstr_eqb (toUpperCase s) [ascii_of_N n] = true
  <-> s = [ascii_of_N n] \/ s = [ascii_of_N (n + 32)].
Proof.
  intros Hn. rewrite jsstr_eqb_eq. split.
  - destruct s as [|c [|c' s']]; simpl; try discriminate.
    intros [= H]. apply (upperChar_letter c n Hn) in H.
    destruct H as [->| ->]; auto.
  - intros [->| ->]; simpl; f_equal; apply (upperChar_letter _ n Hn); auto.
Qed.

Lemma command_P (answer : jsstr) :
  jsstr_eqb (toUpperCase answer) (str "P") = true
  <-> answer = str "P" \/ answer = str "p".
Proof. apply (toUpperCase_letter answer 80). lia. Qed.

Lemma command_A (answer : jsstr) :
  jsstr_eqb (toUpperCase answer) (str "A") = true
  <-> answer = str "A" \/ answer = str "a".
Proof. apply (toUpperCase_letter answer 65). lia. Qed.

Lemma command_Q (answer : jsstr) :
  jsstr_eqb (toUpperCase answer) (str "Q") = true
  <-> answer = str "Q" \/ answer = str "q".
Proof. apply (toUpperCase_letter answer 81). lia. Qed.

Lemma editCSP_answer_number_pending (d : JSObject) (answer : jsstr) :
  isCommand answer = false ->
  pending (fst (editCSP_answer d answer)) = MENU
  \/ exists directive,
       pending (fst (editCSP_answer d answer)) = EDIT_VALUE directive.
Proof.
  intros H. rewrite editCSP_answer_number by assumption.
  destruct (parseInt answer) as [k|]; [|now left].
  destruct ((1 <=? k) && _)%Z; [right; eexists; reflexivity|now left].
Qed.

(** ** What is written to the file *)

Lemma entryLines_no_write (index : nat) (es : list (jsstr * list jsstr))
  (path content : jsstr) :
  ~ In (WriteFile path content) (entryLines index es).
Proof.
  revert index. induction es as [|[k v] es IH]; intros index; [intros []|].
  simpl. intros [H|H]; [discriminate|]. exact (IH _ H).
Qed.

Lemma editCSP_no_write (d : JSObject) (path content : jsstr) :
  ~ In (WriteFile path content) (snd (editCSP d)).
Proof.
  unfold editCSP. cbn [snd]. intros [H|H]; [discriminate|].
  apply in_app_or in H. destruct H as [H|H].
  - exact (entryLines_no_write _ _ _ _ H).
  - simpl in H. repeat (destruct H as [H|H]; [discriminate|]). exact H.
Qed.

Lemma editCSP_newValue_no_write (d : JSObject) (directive line path content : jsstr) :
  ~ In (WriteFile path content) (snd (editCSP_newValue d directive line)).
Proof. apply editCSP_no_write. Qed.

Lemma addDirective_newDirective_no_write (d : JSObject)
  (line path content : jsstr) :
  ~ In (WriteFile path content) (snd (addDirective_newDirective d line)).
Proof.
  rewrite addDirective_newDirective_tokens.
  destruct (splitSpaces line); [|apply editCSP_no_write].
  simpl. intros [H|[H|[]]]; discriminate.
Qed.

Lemma editCSP_answer_write (d : JSObject) (answer path content : jsstr) :
  In (WriteFile path content) (snd (editCSP_answer d answer))
  <-> (answer = str "P" \/ answer = str "p")
      /\ path = str "generated_csp.txt" /\ content = serializeCSP d.
Proof.
  pose proof (command_P answer) as HP. unfold editCSP_answer.
  destruct (jsstr_eqb (toUpperCase answer) (str "P")) eqn:EP.
  - cbn [snd]. split.
    + intros H. simpl in H.
      destruct H as [H|[H|[H|[H|[H|[H|[H|[]]]]]]]]; try discriminate.
      injection H as <- <-. split; [now apply HP|now split].
    + intros [_ [-> ->]]. simpl. auto 6.
  - split; [|intros [H _]; apply HP in H; discriminate].
    intros H. exfalso.
    destruct (jsstr_eqb (toUpperCase answer) (str "A")).
    { simpl in H. destruct H as [H|[]]. discriminate. }
    destruct (jsstr_eqb (toUpperCase answer) (str "Q")).
    { simpl in H. destruct H as [H|[H|[H|[]]]]; discriminate. }
    destruct (option_map _ (parseInt answer)) as [i|].
    + destruct ((0 <=? i) && _)%Z.
      * simpl in H. destruct H as [H|[]]. discriminate.
      * simpl in H. destruct H as [H|H]; [discriminate|].
        exact (editCSP_no_write _ _ _ H).
    + simpl in H. destruct H as [H|H]; [discriminate|].
      exact (editCSP_no_write _ _ _ H).
Qed.

Lemma run_terminated (s : Session) (lines : list jsstr) :
  pending s = TERMINATED -> run s lines = (s, []).
Proof.
  intros H. induction lines as [|l ls IH]; [reflexivity|].
  simpl. unfold onLine. rewrite H. now rewrite IH.
Qed.

Lemma editCSP_answer_P (d : JSObject) (answer : jsstr) :
  answer = str "P" \/ answer = str "p" ->
  fst (editCSP_answer d answer) = mkSession d TERMINATED.
Proof. intros [->| ->]; reflexivity. Qed.

Lemma onLine_write (s : Session) (line path content : jsstr) :
  In (WriteFile path content) (snd (onLine s line))
  <-> pending s = MENU
      /\ (line = str "P" \/ line = str "p")
      /\ path = str "generated_csp.txt"
      /\ content = serializeCSP (directives s).
Proof.
  unfold onLine. destruct (pending s) as [|directive| |].
  - rewrite editCSP_answer_write. tauto.
  - split; [|intros [H _]; discriminate].
    intros H. exfalso. exact (editCSP_newValue_no_write _ _ _ _ _ H).
  - split; [|intros [H _]; discriminate].
    intros H. exfalso. exact (addDirective_newDirective_no_write _ _ _ _ H).
  - split; [intros []|intros [H _]; discriminate].
Qed.

(** ** Invariants of a session *)

Lemma getCSP_wf (url : jsstr) (r : FetchResult) : wfObject (fst (getCSP url r)).
Proof.
  destruct r as [message|[csp|]]; simpl; try apply emptyObject_wf.
  destruct (truthy csp); simpl; [apply deserializeCSP_wf|apply emptyObject_wf].
Qed.

Lemma onLine_canonical (s : Session) (line : jsstr) :
  canonical (directives s) -> canonical (directives (fst (onLine s line))).
Proof.
  intros H. unfold onLine. destruct (pending s) as [|directive| |].
  - now rewrite editCSP_answer_directives.
  - unfold editCSP_newValue. rewrite editCSP_session. cbn [directives].
    now apply setProp_canonical.
  - rewrite addDirective_newDirective_tokens.
    destruct (splitSpaces line); [exact H|].
    rewrite editCSP_session. cbn [directives]. now apply setProp_canonical.
  - exact H.
Qed.

Lemma run_canonical (s : Session) (lines : list jsstr) :
  canonical (directives s) -> canonical (directives (fst (run s lines))).
Proof.
  revert s. induction lines as [|l ls IH]; intros s H; [exact H|].
  simpl. pose proof (onLine_canonical s l H) as H1.
  destruct (onLine s l) as [s1 out1]. specialize (IH s1 H1).
  destruct (run s1 ls) as [s2 out2]. exact IH.
Qed.

Lemma cleanLine_tokens (line : jsstr) :
  cleanLine line ->
  Forall (fun t => t <> [] /\ tokenOk t) (splitSpaces line).
Proof.
  intros Hc. apply Forall_forall. intros t Ht.
  pose proof (tokens_nonempty (fun c => Ascii.eqb c SPACE) line) as Hne.
  rewrite Forall_forall in Hne. split; [now apply Hne|].
  assert (Hw : Forall (fun c => isWhiteSpace c = false /\ c <> SEMI) t).
  { apply Forall_forall. intros c Hin.
    destruct (tokens_free _ _ _ _ Ht Hin) as [Hl Hs].
    unfold cleanLine in Hc. rewrite Forall_forall in Hc.
    destruct (Hc c Hl) as [Hsemi Hsp]. split; [|assumption].
    destruct (isWhiteSpace c); [|reflexivity].
    rewrite (Hsp eq_refl), Ascii.eqb_refl in Hs. discriminate. }
  split; [|split].
  - split.
    + destruct t; [exact I|]. inversion Hw as [|? ? [H _] _]. exact H.
    + apply Forall_rev in Hw. destruct (rev t); [exact I|].
      inversion Hw as [|? ? [H _] _]. exact H.
  - intros Hin. rewrite Forall_forall in Hw. destruct (Hw _ Hin). discriminate.
  - intros Hin. rewrite Forall_forall in Hw. destruct (Hw _ Hin). congruence.
Qed.

Lemma goodTokens_cons (name : jsstr) (values : list jsstr) :
  name <> [] -> tokenOk name ->
  Forall (fun t => t <> [] /\ tokenOk t) values ->
  goodTokens (name :: values).
Proof.
  intros Hn Hok Hv. split; [exact Hn|]. split.
  - destruct values as [|v vs]; [exact Hn|].
    assert (Hin : In (last (name :: v :: vs) []) (v :: vs)).
    { change (last (name :: v :: vs) []) with (last (v :: vs) []).
      destruct (@exists_last _ (v :: vs)) as [l [x E]]; [discriminate|].
      rewrite E, last_last. apply in_or_app. right. now left. }
    rewrite Forall_forall in Hv. now apply Hv.
  - constructor; [exact Hok|].
    eapply Forall_impl; [|exact Hv]. now intros t [_ H].
Qed.

Lemma wfObject_key (d : JSObject) (k : jsstr) :
  wfObject d -> In k (Object_keys d) -> k <> [] /\ tokenOk k.
Proof.
  intros [_ Hg] Hin. apply in_map_iff in Hin. destruct Hin as [[k' v] [<- He]].
  rewrite Forall_forall in Hg. destruct (Hg _ He) as [Hhd [_ Hall]].
  split; [exact Hhd|]. now inversion Hall.
Qed.

Lemma onLine_sessionWf (s : Session) (line : jsstr) :
  sessionWf s -> cleanLine line -> sessionWf (fst (onLine s line)).
Proof.
  intros [Hd Hp] Hline. pose proof (cleanLine_tokens line Hline) as Htok.
  unfold onLine. destruct (pending s) as [|directive| |] eqn:Ep.
  - split.
    + now rewrite editCSP_answer_directives.
    + destruct (pending (fst (editCSP_answer (directives s) line))) eqn:E;
        try exact I.
      rewrite editCSP_answer_directives.
      eapply editCSP_answer_pending. exact E.
  - unfold editCSP_newValue. rewrite editCSP_session, filter_split_spaces.
    split; [|exact I]. cbn [directives].
    destruct (wfObject_key _ _ Hd Hp) as [Hn Hok].
    apply setProp_wf; [|exact Hd]. now apply goodTokens_cons.
  - rewrite addDirective_newDirective_tokens.
    destruct (splitSpaces line) as [|name values].
    + split; [exact Hd|exact I].
    + rewrite editCSP_session. split; [|exact I]. cbn [directives].
      inversion Htok as [|? ? [Hn Hok] Hv]; subst.
      apply setProp_wf; [|exact Hd]. now apply goodTokens_cons.
  - split; [exact Hd|]. cbn [fst]. now rewrite Ep.
Qed.

Lemma run_sessionWf (s : Session) (lines : list jsstr) :
  sessionWf s -> Forall cleanLine lines -> sessionWf (fst (run s lines)).
Proof.
  intros Hs Hlines. revert s Hs.
  induction Hlines as [|l ls Hl _ IH]; intros s Hs; [exact Hs|].
  simpl. pose proof (onLine_sessionWf s l Hs Hl) as H1.
  destruct (onLine s l) as [s1 out1]. specialize (IH s1 H1).
  destruct (run s1 ls) as [s2 out2]. exact IH.
Qed.

Lemma cleanLine_check (line : jsstr) :
  forallb (fun c => negb (Ascii.eqb c SEMI)
                    && (negb (isWhiteSpace c) || Ascii.eqb c SPACE)) line
  = true ->
  cleanLine line.
Proof.
  intros H. rewrite forallb_forall in H. apply Forall_forall. intros c Hc.
  specialize (H c Hc). apply andb_prop in H. destruct H as [H1 H2]. split.
  - intros ->. rewrite Ascii.eqb_refl in H1. discriminate.
  - intros Hw. rewrite Hw in H2. simpl in H2. now apply Ascii.eqb_eq.
Qed.

(** ** Growth of the directive set *)

Lemma keys_defineProp_perm (k : jsstr) (v : list jsstr) (o : JSObject) :
  Permutation (k :: Object_keys o) (Object_keys (defineProp k v o)).
Proof.
  destruct (defineProp_split k v o) as [a [b [E ->]]]. subst o.
  rewrite !keys_app. simpl. apply Permutation_middle.
Qed.

Lemma keys_setProp_cases (k : jsstr) (v : list jsstr) (o : JSObject) :
  (k = PROTO \/ In k (Object_keys o)) /\
  Object_keys (setProp k v o) = Object_keys o
  \/ (k <> PROTO /\ ~ In k (Object_keys o)) /\
     Permutation (k :: Object_keys o) (Object_keys (setProp k v o)).
Proof.
  unfold setProp. destruct (jsstr_eqb k PROTO) eqn:Ep.
  - left. apply jsstr_eqb_eq in Ep. split; [now left|reflexivity].
  - apply jsstr_eqb_neq in Ep. destruct (hasOwn k o) eqn:Eh.
    + left. split; [right; now apply hasOwn_In|apply keys_updateProp].
    + right. split; [split; [exact Ep|now apply hasOwn_not_In]|].
      apply keys_defineProp_perm.
Qed.

Lemma keys_setProp_incl (k n : jsstr) (v : list jsstr) (o : JSObject) :
  In n (Object_keys o) -> In n (Object_keys (setProp k v o)).
Proof.
  intros H. destruct (keys_setProp_cases k v o) as [[_ E]|[_ P]].
  - now rewrite E.
  - eapply Permutation_in; [exact P|]. now right.
Qed.

Lemma onLine_keeps_names (s : Session) (line n : jsstr) :
  In n (Object_keys (directives s)) ->
  In n (Object_keys (directives (fst (onLine s line)))).
Proof.
  intros H. unfold onLine. destruct (pending s) as [|directive| |].
  - now rewrite editCSP_answer_directives.
  - unfold editCSP_newValue. rewrite editCSP_session. cbn [directives].
    now apply keys_setProp_incl.
  - rewrite addDirective_newDirective_tokens.
    destruct (splitSpaces line); [exact H|].
    rewrite editCSP_session. cbn [directives]. now apply keys_setProp_incl.
  - exact H.
Qed.

(** ** Assignments to one name *)

Lemma updateProp_twice (k : jsstr) (v1 v2 : list jsstr) (o : JSObject) :
  updateProp k v2 (updateProp k v1 o) = updateProp k v2 o.
Proof.
  induction o as [|[k' v'] o IH]; [reflexivity|]. simpl.
  destruct (jsstr_eqb k k') eqn:E; simpl; rewrite E; [reflexivity|].
  now rewrite IH.
Qed.

Lemma updateProp_insertIndex (i : N) (k : jsstr) (v1 v2 : list jsstr)
  (o : JSObject) :
  ~ In k (Object_keys o) ->
  updateProp k v2 (insertIndex i k v1 o) = insertIndex i k v2 o.
Proof.
  induction o as [|[k' v'] o IH]; intros Hnew.
  - simpl. now rewrite jsstr_eqb_refl.
  - simpl in Hnew. simpl.
    assert (Hk : jsstr_eqb k k' = false)
      by (apply jsstr_eqb_neq; intros ->; apply Hnew; now left).
    destruct (isArrayIndex k') as [j|].
    + destruct (i <? j)%N; simpl.
      * now rewrite jsstr_eqb_refl.
      * rewrite Hk, IH; [reflexivity|tauto].
    + simpl. now rewrite jsstr_eqb_refl.
Qed.

Lemma updateProp_snoc (k : jsstr) (v1 v2 : list jsstr) (o : JSObject) :
  ~ In k (Object_keys o) ->
  updateProp k v2 (o ++ [(k, v1)]) = o ++ [(k, v2)].
Proof.
  induction o as [|[k' v'] o IH]; intros Hnew.
  - simpl. now rewrite jsstr_eqb_refl.
  - simpl in Hnew. simpl.
    assert (Hk : jsstr_eqb k k' = false)
      by (apply jsstr_eqb_neq; intros ->; apply Hnew; now left).
    rewrite Hk, IH; [reflexivity|tauto].
Qed.

Lemma hasOwn_defineProp (k : jsstr) (v : list jsstr) (o : JSObject) :
  hasOwn k (defineProp k v o) = true.
Proof.
  apply hasOwn_In. eapply Permutation_in; [apply keys_defineProp_perm|].
  now left.
Qed.

Lemma setProp_twice (k : jsstr) (v1 v2 : list jsstr) (o : JSObject) :
  setProp k v2 (setProp k v1 o) = setProp k v2 o.
Proof.
  unfold setProp. destruct (jsstr_eqb k PROTO); [reflexivity|].
  destruct (hasOwn k o) eqn:Eh.
  - assert (H : hasOwn k (updateProp k v1 o) = true).
    { apply hasOwn_In. rewrite keys_updateProp. now apply hasOwn_In. }
    rewrite H. apply updateProp_twice.
  - rewrite hasOwn_defineProp. apply hasOwn_not_In in Eh.
    unfold defineProp. destruct (isArrayIndex k) as [i|].
    + now apply updateProp_insertIndex.
    + now apply updateProp_snoc.
Qed.

(** ** The numbers of the menu *)

Lemma entryLines_nth (es : list (jsstr * list jsstr)) (index i : nat) :
  i < List.length es ->
  nth i (entryLines index es) Exit
  = Log (showNat (index + i + 1) ++ str ": " ++ [ESC] ++ str "[33m"
         ++ fst (nth i es ([], [])) ++ [ESC] ++ str "[0m - "
         ++ join [SPACE] (snd (nth i es ([], [])))).
Proof.
  revert index i. induction es as [|[k v] es IH]; intros index i Hi;
    [simpl in Hi; lia|].
  destruct i as [|i].
  - simpl. now rewrite Nat.add_0_r.
  - simpl in Hi. simpl nth. rewrite IH by lia.
    replace (S index + i + 1) with (index + S i + 1) by lia. reflexivity.
Qed.

Lemma entryLines_length (es : list (jsstr * list jsstr)) (index : nat) :
  List.length (entryLines index es) = List.length es.
Proof.
  revert index. induction es as [|[k v] es IH]; intros index; [reflexivity|].
  simpl. now rewrite IH.
Qed.

Lemma keys_nth (d : JSObject) (i : nat) :
  nth i (Object_keys d) [] = fst (nth i d ([], [])).
Proof. exact (map_nth fst d ([], []) i). Qed.

(** ** Answers that are not accepted *)

Lemma digitValue_nondigit (c : ascii) :
  isDigit c = false -> digitValue 10 c = None.
Proof.
  unfold isDigit, digitValue. intros H. rewrite H.
  destruct ((97 <=? code c) && (code c <=? 122))%N eqn:E1.
  - apply andb_prop in E1. destruct E1 as [H1 _]. apply N.leb_le in H1.
    replace (code c - 87 <? 10)%N with false; [reflexivity|].
    symmetry. apply N.ltb_ge. lia.
  - destruct ((65 <=? code c) && (code c <=? 90))%N eqn:E2; [|reflexivity].
    apply andb_prop in E2. destruct E2 as [H1 _]. apply N.leb_le in H1.
    replace (code c - 55 <? 10)%N with false; [reflexivity|].
    symmetry. apply N.ltb_ge. lia.
Qed.

Lemma parseInt_nondigit (c : ascii) (t : jsstr) :
  isWhiteSpace c = false -> isDigit c = false ->
  c <> ascii_of_N 43 -> c <> MINUS ->
  parseInt (c :: t) = None.
Proof.
  intros Hw Hd Hplus Hminus. unfold parseInt. cbn [trimStart]. rewrite Hw.
  apply Ascii.eqb_neq in Hplus. apply Ascii.eqb_neq in Hminus.
  unfold MINUS in Hminus. rewrite Hplus, Hminus.
  assert (Hz : Ascii.eqb c (ascii_of_N 48) = false).
  { apply Ascii.eqb_neq. intros ->. discriminate. }
  destruct t as [|x r].
  - cbn [digitsPrefix]. now rewrite digitValue_nondigit.
  - rewrite Hz. cbn [andb digitsPrefix]. now rewrite digitValue_nondigit.
Qed.

Lemma parseInt_minus (t : jsstr) :
  match parseInt (MINUS :: t) with
  | Some k => (k <= 0)%Z
  | None => True
  end.
Proof.
  unfold parseInt.
  replace (trimStart (MINUS :: t)) with (MINUS :: t) by reflexivity.
  replace (Ascii.eqb MINUS (ascii_of_N 45)) with true by reflexivity.
  cbv iota beta.
  set (p := match t with
            | z :: x :: r =>
                if (Ascii.eqb z (ascii_of_N 48)
                    && (Ascii.eqb x (ascii_of_N 120)
                        || Ascii.eqb x (ascii_of_N 88)))%bool
                then (16%N, r) else (10%N, t)
            | _ => (10%N, t)
            end).
  destruct p as [radix s3].
  destruct (digitsPrefix radix s3 None) as [m|]; [lia|exact I].
Qed.

(** ** The earlier copy of the script *)

Lemma Part001_editCSP_answer_session (d : JSObject) (answer : jsstr) :
  fst (Part001.editCSP_answer d answer) = fst (editCSP_answer d answer).
Proof.
  unfold Part001.editCSP_answer, editCSP_answer.
  destruct (jsstr_eqb (toUpperCase answer) (str "P")); [reflexivity|].
  destruct (jsstr_eqb (toUpperCase answer) (str "A")); [reflexivity|].
  destruct (jsstr_eqb (toUpperCase answer) (str "Q")); reflexivity.
Qed.

Lemma Part001_onLine_session (s : Session) (line : jsstr) :
  fst (Part001.onLine s line) = fst (onLine s line).
Proof.
  unfold Part001.onLine, onLine.
  destruct (pending s); try reflexivity. apply Part001_editCSP_answer_session.
Qed.

Lemma entryLines_dialogue (index : nat) (es : list (jsstr * list jsstr)) :
  Forall (fun e => match e with
                   | Log _ | Question _ | Close => True
                   | _ => False
                   end) (entryLines index es).
Proof.
  revert index. induction es as [|[k v] es IH]; intros index; simpl;
    constructor; [exact I|apply IH].
Qed.

Lemma editCSP_dialogue (d : JSObject) :
  Forall (fun e => match e with
                   | Log _ | Question _ | Close => True
                   | _ => False
                   end) (snd (editCSP d)).
Proof.
  unfold editCSP. cbn [snd]. constructor; [exact I|].
  apply Forall_app. split; [apply entryLines_dialogue|].
  repeat constructor.
Qed.

Lemma Part001_onLine_dialogue (s : Session) (line : jsstr) :
  Forall (fun e => match e with
                   | Log _ | Question _ | Close => True
                   | _ => False
                   end) (snd (Part001.onLine s line)).
Proof.
  unfold Part001.onLine. destruct (pending s) as [|directive| |].
  - unfold Part001.editCSP_answer.
    destruct (jsstr_eqb (toUpperCase line) (str "P")); [repeat constructor|].
    destruct (jsstr_eqb (toUpperCase line) (str "A")); [repeat constructor|].
    destruct (jsstr_eqb (toUpperCase line) (str "Q")); [repeat constructor|].
    destruct (option_map _ (parseInt line)) as [i|].
    + destruct ((0 <=? i) && _)%Z; [repeat constructor|].
      constructor; [exact I|apply editCSP_dialogue].
    + constructor; [exact I|apply editCSP_dialogue].
  - apply editCSP_dialogue.
  - rewrite addDirective_newDirective_tokens.
    destruct (splitSpaces line); [repeat constructor|apply editCSP_dialogue].
  - constructor.
Qed.

(** ** The directive set of any policy string *)

Lemma in_keys_setProp (n k : jsstr) (v : list jsstr) (o : JSObject) :
  In n (Object_keys (setProp k v o))
  <-> In n (Object_keys o) \/ (n = k /\ k <> PROTO).
Proof.
  destruct (keys_setProp_cases k v o) as [[Hc E]|[[Hp Hn] P]].
  - rewrite E. split; [now left|]. intros [H|[-> Hp]]; [exact H|].
    destruct Hc as [Hc|Hc]; [contradiction|exact Hc].
  - split.
    + intros H. apply (Permutation_in _ (Permutation_sym P)) in H.
      destruct H as [<-|H]; [right; now split|now left].
    + intros [H|[-> _]]; apply (Permutation_in _ P); [now right|now left].
Qed.

Lemma in_keys_insertClauses (n : jsstr) (cs : list (jsstr * list jsstr))
  (o : JSObject) :
  In n (Object_keys (insertClauses cs o))
  <-> In n (Object_keys o) \/ (In n (map fst cs) /\ n <> PROTO).
Proof.
  revert o. induction cs as [|[k v] cs IH]; intros o.
  - simpl. tauto.
  - simpl. rewrite IH, in_keys_setProp. simpl. split.
    + intros [[H|[-> Hp]]|[H Hp]]; auto.
    + intros [H|[[<-|H] Hp]]; auto.
Qed.

Lemma filter_keys_defineProp_index (k : jsstr) (v : list jsstr) (o : JSObject)
  (f : jsstr -> bool) :
  f k = false ->
  filter f (Object_keys (defineProp k v o)) = filter f (Object_keys o).
Proof.
  intros Hf. destruct (defineProp_split k v o) as [a [b [E ->]]]. subst o.
  rewrite !keys_app, !filter_app. simpl. now rewrite Hf.
Qed.

Lemma existsb_keys_setProp (m k : jsstr) (v : list jsstr) (o : JSObject) :
  m <> k ->
  existsb (jsstr_eqb m) (Object_keys (setProp k v o))
  = existsb (jsstr_eqb m) (Object_keys o).
Proof.
  intros Hm. rewrite <- !hasOwn_existsb.
  destruct (hasOwn m o) eqn:E.
  - apply hasOwn_In. apply in_keys_setProp. left. now apply hasOwn_In.
  - apply hasOwn_not_In. intros H. apply in_keys_setProp in H.
    destruct H as [H|[H _]]; [|contradiction].
    apply hasOwn_In in H. congruence.
Qed.

Lemma ordinary_plainName (k : jsstr) : ordinary k = true <-> plainName k.
Proof.
  unfold ordinary, notIndex, plainName.
  rewrite andb_true_iff, negb_true_iff, jsstr_eqb_neq.
  destruct (isArrayIndex k); split; intros [H1 H2];
    split; congruence || reflexivity || assumption.
Qed.

Lemma firstOccurrences_In (names : list jsstr) (x : jsstr) :
  In x (firstOccurrences names) <-> In x names.
Proof.
  induction names as [|n names IH]; simpl; [reflexivity|].
  rewrite filter_In, IH. destruct (jsstr_eqb x n) eqn:E.
  - apply jsstr_eqb_eq in E. subst. split; intros _; now left.
  - apply jsstr_eqb_neq in E. split.
    + intros [H|[H _]]; [now left|now right].
    + intros [H|H]; [now left|right; now split].
Qed.

(** The names that are not array indices, in any policy. *)
Lemma plain_keys_insertClauses (cs : list (jsstr * list jsstr)) (o : JSObject) :
  filter notIndex (Object_keys (insertClauses cs o))
  = filter notIndex (Object_keys o)
    ++ filter (fun m => negb (existsb (jsstr_eqb m) (Object_keys o)))
         (firstOccurrences (filter ordinary (map fst cs))).
Proof.
  revert o. induction cs as [|[k v] cs IH]; intros o.
  - simpl. now rewrite app_nil_r.
  - cbn [insertClauses fold_left map fst snd filter].
    change (fold_left
              (fun directives c => setProp (fst c) (snd c) directives) cs
              (setProp k v o))
      with (insertClauses cs (setProp k v o)).
    rewrite IH. destruct (ordinary k) eqn:Eo.
    + apply ordinary_plainName in Eo.
      rewrite keys_setProp_plain by exact Eo. rewrite hasOwn_existsb.
      assert (Hni : notIndex k = true)
        by (unfold notIndex; destruct Eo as [-> _]; reflexivity).
      cbn [firstOccurrences filter].
      destruct (existsb (jsstr_eqb k) (Object_keys o)) eqn:E; cbn [negb].
      * f_equal. symmetry. apply filter_absorb_names.
        apply existsb_exists in E. destruct E as [x [Hx Hkx]].
        apply jsstr_eqb_eq in Hkx. now subst.
      * rewrite filter_app. cbn [filter]. rewrite Hni.
        rewrite <- app_assoc. cbn [app]. f_equal. f_equal.
        apply filter_filter_names.
    + assert (Hkeys : filter notIndex (Object_keys (setProp k v o))
                      = filter notIndex (Object_keys o)).
      { unfold ordinary in Eo. unfold setProp.
        destruct (jsstr_eqb k PROTO); [reflexivity|].
        rewrite andb_true_r in Eo.
        destruct (hasOwn k o); [now rewrite keys_updateProp|].
        now apply filter_keys_defineProp_index. }
      rewrite Hkeys. f_equal. apply filter_ext_in. intros m Hm.
      rewrite existsb_keys_setProp; [reflexivity|].
      intros ->. apply (proj1 (firstOccurrences_In _ _)) in Hm.
      apply filter_In in Hm.
      destruct Hm as [_ Hm]. congruence.
Qed.

(** ** Text around a number *)

Lemma digitValue_digit (c : ascii) :
  isDigit c = true -> digitValue 10 c = Some (code c - 48)%N.
Proof.
  unfold isDigit, digitValue. intros H. rewrite H.
  apply andb_prop in H. destruct H as [H1 H2]. apply N.leb_le in H1, H2.
  replace (code c - 48 <? 10)%N with true; [reflexivity|].
  symmetry. apply N.ltb_lt. lia.
Qed.

Lemma digitsPrefix_stop (a t : jsstr) (acc : option N) :
  Forall (fun c => isDigit c = true) a ->
  match t with [] => True | x :: _ => isDigit x = false end ->
  digitsPrefix 10 (a ++ t) acc = digitsPrefix 10 a acc.
Proof.
  intros Ha Ht. revert acc. induction Ha as [|c a Hc _ IH]; intros acc.
  - destruct t as [|x r]; [reflexivity|]. simpl.
    now rewrite digitValue_nondigit.
  - simpl. rewrite (digitValue_digit c Hc). apply IH.
Qed.

Lemma parseInt_skips_white (w s : jsstr) :
  Forall (fun c => isWhiteSpace c = true) w -> parseInt (w ++ s) = parseInt s.
Proof.
  intros Hw. unfold parseInt. now rewrite trimStart_white.
Qed.

Lemma parseInt_digit_head (c : ascii) (rest : jsstr) :
  isDigit c = true ->
  match rest with
  | [] => True
  | x :: _ => x <> ascii_of_N 120 /\ x <> ascii_of_N 88
  end ->
  parseInt (c :: rest) = option_map Z.of_N (digitsPrefix 10 (c :: rest) None).
Proof.
  intros Hc Hrest. unfold parseInt. cbn [trimStart].
  rewrite (isDigit_not_white c Hc).
  rewrite (isDigit_neq c 45 Hc), (isDigit_neq c 43 Hc) by lia.
  cbv beta iota zeta.
  destruct rest as [|x r].
  - destruct (digitsPrefix 10 [c] None) as [m|]; [|reflexivity].
    cbn [option_map]. f_equal. apply Z.mul_1_l.
  - destruct Hrest as [H1 H2]. apply Ascii.eqb_neq in H1, H2.
    rewrite H1, H2, andb_false_r. cbv beta iota zeta.
    destruct (digitsPrefix 10 (c :: x :: r) None) as [m|]; [|reflexivity].
    cbn [option_map]. f_equal. apply Z.mul_1_l.
Qed.

Lemma parseInt_number_then_text (n : N) (t : jsstr) :
  match t with
  | [] => True
  | x :: _ => isDigit x = false /\ x <> ascii_of_N 120 /\ x <> ascii_of_N 88
  end ->
  parseInt (Number_toString n ++ t) = Some (Z.of_N n).
Proof.
  intros Ht.
  pose proof (Number_toString_digits n) as Hd.
  pose proof (Number_toString_nonempty n) as Hne.
  assert (Hv : digitsPrefix 10 (Number_toString n ++ t) None = Some n).
  { rewrite digitsPrefix_stop; [apply digitsPrefix_Number_toString|exact Hd|].
    destruct t; [exact I|tauto]. }
  destruct (Number_toString n) as [|c s]; [congruence|].
  inversion Hd as [|? ? Hc Hs]; subst. cbn [app] in Hv |- *.
  rewrite parseInt_digit_head, Hv; [reflexivity|exact Hc|].
  destruct s as [|x r]; cbn [app].
  - destruct t; [exact I|tauto].
  - inversion Hs as [|? ? Hx _]; subst.
    split; apply Ascii.eqb_neq; apply isDigit_neq; (assumption || lia).
Qed.

Lemma not_command_head (c : ascii) (s : jsstr) :
  upperChar c <> ascii_of_N 80 -> upperChar c <> ascii_of_N 65 ->
  upperChar c <> ascii_of_N 81 ->
  isCommand (c :: s) = false.
Proof.
  intros HP HA HQ. unfold isCommand.
  repeat apply orb_false_intro; apply jsstr_eqb_neq; simpl;
    intros E; injection E as E _; contradiction.
Qed.

Lemma white_not_letter (c : ascii) (n : N) :
  isWhiteSpace c = true -> (65 <= n <= 90)%N -> upperChar c <> ascii_of_N n.
Proof.
  intros Hw Hn H. apply (upperChar_letter c n Hn) in H.
  destruct H as [->| ->]; unfold isWhiteSpace in Hw;
    rewrite code_ascii_of_N in Hw by lia;
    repeat (apply orb_prop in Hw; destruct Hw as [Hw|Hw]);
    try (apply andb_prop in Hw; destruct Hw as [H1 H2];
         apply N.leb_le in H1, H2; lia);
    apply N.eqb_eq in Hw; lia.
Qed.

Lemma digit_not_letter (c : ascii) (n : N) :
  isDigit c = true -> (65 <= n <= 90)%N -> upperChar c <> ascii_of_N n.
Proof.
  intros Hd Hn H. rewrite (isDigit_upper c Hd) in H. subst c.
  unfold isDigit in Hd. rewrite code_ascii_of_N in Hd by lia.
  apply andb_prop in Hd. destruct Hd as [_ H2]. apply N.leb_le in H2. lia.
Qed.


(** * The specification, statement by statement *)

(** C1 - Round trip.  For every directive set [D] that [deserializeCSP]
    produces from a well-formed policy string [S] (nonempty clauses, tokens
    separated by single spaces), parsing what [serializeCSP] makes of [D]
    gives [D] again.  The proof does not use well-formedness: the law holds
    for the directive set of any policy string. *)
Theorem roundtrip_parse_serialize (S : jsstr) (D : JSObject) :
  well_formed S = true ->
  D = deserializeCSP S ->
  deserializeCSP (serializeCSP D) = D.
Proof.
  intros _ ->. apply deserialize_serialize, deserializeCSP_wf.
Qed.

Lemma roundtrip_parse_serialize_witness :
  well_formed (str "default-src 'self'; img-src 'self' data:") = true
  /\ deserializeCSP
       (serializeCSP
          (deserializeCSP (str "default-src 'self'; img-src 'self' data:")))
     = deserializeCSP (str "default-src 'self'; img-src 'self' data:").
Proof.
  split; [reflexivity|].
  apply (roundtrip_parse_serialize
           (str "default-src 'self'; img-src 'self' data:"));
    reflexivity.
Defined.

(** C2 (as the program has it) - Order of first occurrence, last write
    wins.  For every policy string the names of the directive set are
    pairwise different; leaving the name [__proto__] aside, a name is in the
    set exactly when a clause has it, and it has the values of its last
    clause.  The names that are array indices come first, in ascending
    order; all other names follow in the order of their first occurrence in
    the policy string, a repeated name keeping the place of its first
    occurrence.  So when no clause name is an array index or [__proto__],
    the order of the set is the order of first occurrence; "a 1; b 2; a 3"
    gives a with [3], then b with [2].  When the editor adds a directive
    under a name that is already in the set, whatever that name is, the
    names and their order stay, the name takes the new values and every
    other name keeps its own. *)
Theorem first_occurrence_last_write (cspString line name : jsstr)
  (values : list jsstr) (d : JSObject) :
  splitSpaces line = name :: values ->
  In name (Object_keys d) ->
  ~ In PROTO (Object_keys d) ->
  NoDup (Object_keys (deserializeCSP cspString))
  /\ (forall n, n <> PROTO ->
        (In n (Object_keys (deserializeCSP cspString))
         <-> In n (map fst (clauses cspString))))
  /\ (forall n, n <> PROTO ->
        getProp n (deserializeCSP cspString)
        = lastValues n (clauses cspString))
  /\ filter ordinary (Object_keys (deserializeCSP cspString))
     = firstOccurrences (filter ordinary (map fst (clauses cspString)))
  /\ StronglySorted keyOrder (Object_keys (deserializeCSP cspString))
  /\ (Forall (fun c => plainName (fst c)) (clauses cspString) ->
      Object_keys (deserializeCSP cspString)
      = firstOccurrences (map fst (clauses cspString)))
  /\ deserializeCSP (str "a 1; b 2; a 3")
     = [(str "a", [str "3"]); (str "b", [str "2"])]
  /\ Object_keys (directives (fst (addDirective_newDirective d line)))
     = Object_keys d
  /\ getProp name (directives (fst (addDirective_newDirective d line)))
     = Some values
  /\ sameExceptAt name d (directives (fst (addDirective_newDirective d line))).
Proof.
  intros Hline Hin Hproto.
  assert (Hname : name <> PROTO) by (intros ->; contradiction).
  destruct (deserializeCSP_wf cspString) as [[Hsorted [Hnd Hnp]] _].
  repeat apply conj.
  - exact Hnd.
  - intros n Hn. rewrite deserializeCSP_clauses, in_keys_insertClauses.
    simpl. tauto.
  - intros n Hn.
    rewrite deserializeCSP_clauses, getProp_insertClauses_any by assumption.
    now destruct (lastValues n (clauses cspString)).
  - transitivity (filter notIndex (Object_keys (deserializeCSP cspString))).
    + apply filter_ext_in. intros k Hk. unfold ordinary.
      replace (jsstr_eqb k PROTO) with false; [apply andb_true_r|].
      symmetry. apply jsstr_eqb_neq. intros ->. contradiction.
    + rewrite deserializeCSP_clauses, plain_keys_insertClauses. simpl.
      induction (firstOccurrences
                   (filter ordinary (map fst (clauses cspString))))
        as [|x l IH]; [reflexivity|]. simpl. now rewrite IH.
  - exact Hsorted.
  - intros Hplain.
    rewrite deserializeCSP_clauses, keys_insertClauses by assumption.
    simpl.
    induction (firstOccurrences (map fst (clauses cspString))) as [|x l IH];
      [reflexivity|]. simpl. now rewrite IH.
  - vm_compute. reflexivity.
  - rewrite addDirective_newDirective_tokens, Hline, editCSP_session.
    cbn [directives]. unfold setProp.
    apply jsstr_eqb_neq in Hname. rewrite Hname.
    apply hasOwn_In in Hin. rewrite Hin. apply keys_updateProp.
  - rewrite addDirective_newDirective_tokens, Hline, editCSP_session.
    cbn [directives]. rewrite getProp_setProp by exact Hname.
    now rewrite jsstr_eqb_refl.
  - rewrite addDirective_newDirective_tokens, Hline, editCSP_session.
    cbn [directives]. now apply setProp_sameExceptAt.
Qed.

Lemma first_occurrence_last_write_witness :
  splitSpaces (str "0 9") = [str "0"; str "9"]
  /\ In (str "0") (Object_keys (deserializeCSP (str "b 1; 0 2")))
  /\ ~ In PROTO (Object_keys (deserializeCSP (str "b 1; 0 2")))
  /\ Object_keys
       (directives
          (fst (addDirective_newDirective
                  (deserializeCSP (str "b 1; 0 2")) (str "0 9"))))
     = Object_keys (deserializeCSP (str "b 1; 0 2"))
  /\ getProp (str "0")
       (directives
          (fst (addDirective_newDirective
                  (deserializeCSP (str "b 1; 0 2")) (str "0 9"))))
     = Some [str "9"].
Proof.
  assert (H1 : splitSpaces (str "0 9") = [str "0"; str "9"]) by reflexivity.
  assert (H2 : In (str "0") (Object_keys (deserializeCSP (str "b 1; 0 2"))))
    by (vm_compute; left; reflexivity).
  assert (H3 : ~ In PROTO (Object_keys (deserializeCSP (str "b 1; 0 2"))))
    by (vm_compute; intuition discriminate).
  split; [exact H1|]. split; [exact H2|]. split; [exact H3|].
  pose proof (first_occurrence_last_write
                (str "a 1; b 2; a 3") (str "0 9") (str "0") [str "9"]
                (deserializeCSP (str "b 1; 0 2")) H1 H2 H3) as H.
  split; apply H.
Defined.

(** C2 (as stated) fails: an array-index name moves to the front.  In
    "b 1; 0 2" the name b occurs first, yet the directive set lists 0 before
    b. *)
Lemma first_occurrence_order_counterexample :
  Object_keys (deserializeCSP (str "b 1; 0 2")) = [str "0"; str "b"]
  /\ firstOccurrences (map fst (clauses (str "b 1; 0 2"))) = [str "b"; str "0"]
  /\ Object_keys (deserializeCSP (str "b 1; 0 2"))
     <> firstOccurrences (map fst (clauses (str "b 1; 0 2"))).
Proof.
  split; [reflexivity|]. split; [reflexivity|]. vm_compute. discriminate.
Qed.




(** C4 (as the program has it) - Menu dispatch.  Let [n] be the number of
    directives and let the answer not be P, A or Q in either case.  The
    callback goes on to wait for the value of the directive at position [k],
    counted from 1 in the order of [Object.keys], in which the menu shows
    the directives, exactly when the answer parses as an integer [k] with
    [1 <= k <= n].  Parsing is [parseInt]: white space before the number and
    text after it are overlooked, and the decimal text of every [k] from 1
    to [n] selects position [k].  In every other case the invalid-selection
    notice is logged and the menu is shown again; the directive set is never
    changed.  The answers "0" and the decimal text of [n + 1] are invalid
    selections.  The position is the one in the order of insertion when the
    set comes from a policy string none of whose names is an array index or
    [__proto__]: the answer [k] then selects the name whose first occurrence
    is the [k]-th. *)
Theorem menu_dispatch (d : JSObject) (answer : jsstr) :
  isCommand answer = false ->
  (forall k, parseInt answer = Some k ->
     (1 <= k <= Z.of_nat (List.length (Object_keys d)))%Z ->
     editCSP_answer d answer
     = (mkSession d (EDIT_VALUE (nth (Z.to_nat (k - 1)) (Object_keys d) [])),
        [Question (editQuery d (nth (Z.to_nat (k - 1)) (Object_keys d) []))]))
  /\ ((forall k, parseInt answer = Some k ->
         ~ (1 <= k <= Z.of_nat (List.length (Object_keys d)))%Z) ->
      editCSP_answer d answer
      = after (Log (str "Invalid selection. Please try again.")) (editCSP d))
  /\ ((exists directive,
         pending (fst (editCSP_answer d answer)) = EDIT_VALUE directive)
      <-> (exists k, parseInt answer = Some k
                     /\ (1 <= k <= Z.of_nat (List.length (Object_keys d)))%Z))
  /\ fst (after (Log (str "Invalid selection. Please try again."))
                (editCSP d))
     = mkSession d MENU
  /\ directives (fst (editCSP_answer d answer)) = d
  /\ editCSP_answer d (str "0")
     = after (Log (str "Invalid selection. Please try again.")) (editCSP d)
  /\ editCSP_answer d (showNat (S (List.length (Object_keys d))))
     = after (Log (str "Invalid selection. Please try again.")) (editCSP d)
  /\ (forall i, i < List.length (Object_keys d) ->
        editCSP_answer d (showNat (S i))
        = (mkSession d (EDIT_VALUE (nth i (Object_keys d) [])),
           [Question (editQuery d (nth i (Object_keys d) []))]))
  /\ (forall (m : nat) (w t : jsstr),
        Forall (fun c => isWhiteSpace c = true) w ->
        match t with
        | [] => True
        | x :: _ =>
            isDigit x = false /\ x <> ascii_of_N 120 /\ x <> ascii_of_N 88
        end ->
        parseInt (w ++ showNat m ++ t) = Some (Z.of_nat m))
  /\ (forall cspString k,
        d = deserializeCSP cspString ->
        Forall (fun c => plainName (fst c)) (clauses cspString) ->
        parseInt answer = Some k ->
        (1 <= k <= Z.of_nat (List.length (Object_keys d)))%Z ->
        pending (fst (editCSP_answer d answer))
        = EDIT_VALUE
            (nth (Z.to_nat (k - 1))
               (firstOccurrences (map fst (clauses cspString))) [])).
Proof.
  intros Hc. pose proof (editCSP_answer_number d answer Hc) as E.
  repeat apply conj.
  - intros k Hk Hr. rewrite E, Hk.
    replace ((1 <=? k) && (k <=? Z.of_nat (List.length (Object_keys d))))%Z
      with true; [reflexivity|].
    symmetry. apply andb_true_intro. split; apply Z.leb_le; lia.
  - intros Hall. rewrite E. destruct (parseInt answer) as [k|]; [|reflexivity].
    destruct ((1 <=? k) && (k <=? Z.of_nat (List.length (Object_keys d))))%Z
      eqn:Er; [|reflexivity].
    exfalso. apply (Hall k eq_refl). apply andb_prop in Er.
    destruct Er as [E1 E2]. apply Z.leb_le in E1, E2. lia.
  - intros [directive H]. rewrite E in H.
    destruct (parseInt answer) as [k|]; [|discriminate].
    destruct ((1 <=? k) && (k <=? Z.of_nat (List.length (Object_keys d))))%Z
      eqn:Er; [|discriminate].
    exists k. split; [reflexivity|]. apply andb_prop in Er.
    destruct Er as [E1 E2]. apply Z.leb_le in E1, E2. lia.
  - intros [k [Hk Hr]]. rewrite E, Hk.
    replace ((1 <=? k) && (k <=? Z.of_nat (List.length (Object_keys d))))%Z
      with true; [eexists; reflexivity|].
    symmetry. apply andb_true_intro. split; apply Z.leb_le; lia.
  - reflexivity.
  - apply editCSP_answer_directives.
  - rewrite editCSP_answer_number by reflexivity. reflexivity.
  - rewrite editCSP_answer_number
      by (apply digits_not_command, Number_toString_digits).
    unfold showNat. rewrite parseInt_Number_toString.
    assert (Hf : (Z.of_N (N.of_nat (S (List.length (Object_keys d))))
                  <=? Z.of_nat (List.length (Object_keys d)))%Z = false)
      by (apply Z.leb_gt; lia).
    rewrite Hf, andb_false_r. reflexivity.
  - intros i Hi. rewrite editCSP_answer_number
      by (apply digits_not_command, Number_toString_digits).
    unfold showNat. rewrite parseInt_Number_toString.
    replace ((1 <=? Z.of_N (N.of_nat (S i)))
             && (Z.of_N (N.of_nat (S i))
                 <=? Z.of_nat (List.length (Object_keys d))))%Z with true
      by (symmetry; apply andb_true_intro; split; apply Z.leb_le; lia).
    now replace (Z.to_nat (Z.of_N (N.of_nat (S i)) - 1)) with i by lia.
  - intros m w t Hw Ht. rewrite parseInt_skips_white by exact Hw.
    unfold showNat. rewrite parseInt_number_then_text by exact Ht.
    f_equal. lia.
  - intros cspString k Hd Hplain Hk Hr. rewrite E, Hk.
    replace ((1 <=? k) && (k <=? Z.of_nat (List.length (Object_keys d))))%Z
      with true
      by (symmetry; apply andb_true_intro; split; apply Z.leb_le; lia).
    cbn [fst pending]. f_equal. f_equal. subst d.
    rewrite deserializeCSP_clauses, keys_insertClauses by assumption.
    simpl.
    induction (firstOccurrences (map fst (clauses cspString))) as [|x l IH];
      [reflexivity|]. simpl. now rewrite IH.
Qed.

Lemma menu_dispatch_witness :
  isCommand (str "2") = false
  /\ editCSP_answer
       (deserializeCSP (str "default-src 'self'; img-src data:")) (str "2")
     = (mkSession (deserializeCSP (str "default-src 'self'; img-src data:"))
          (EDIT_VALUE (str "img-src")),
        [Question
           (editQuery
              (deserializeCSP (str "default-src 'self'; img-src data:"))
              (str "img-src"))]).
Proof.
  assert (H : isCommand (str "2") = false) by reflexivity.
  split; [exact H|].
  rewrite (proj1 (menu_dispatch
                    (deserializeCSP (str "default-src 'self'; img-src data:"))
                    (str "2") H) 2%Z);
    [reflexivity|reflexivity|vm_compute; split; discriminate].
Defined.

(** C4 (as stated) fails: the position is not always the one in the order
    of insertion.  In "b 1; 0 2" the name b is inserted first, yet the
    answer 1 selects 0, which [Object.keys] lists first. *)
Lemma menu_insertion_order_counterexample :
  firstOccurrences (map fst (clauses (str "b 1; 0 2"))) = [str "b"; str "0"]
  /\ isCommand (str "1") = false
  /\ parseInt (str "1") = Some 1%Z
  /\ pending (fst (editCSP_answer (deserializeCSP (str "b 1; 0 2")) (str "1")))
     = EDIT_VALUE (str "0")
  /\ pending (fst (editCSP_answer (deserializeCSP (str "b 1; 0 2")) (str "1")))
     <> EDIT_VALUE
          (nth 0 (firstOccurrences (map fst (clauses (str "b 1; 0 2")))) []).
Proof.
  repeat split; try reflexivity. vm_compute. discriminate.
Qed.

(** C5 (as the program has it) - No separator inside a token.  The parser
    returns a directive set in which no name and no value contains ';'.  The
    editor does not look at what is typed, so the property lasts for as
    long as no input line contains ';': after any script of such lines, from
    the menu shown for the parsed set, no name and no value contains ';'. *)
Theorem separator_free_tokens (cspString : jsstr) (lines : list jsstr) :
  Forall (fun line => ~ In SEMI line) lines ->
  semiFree (deserializeCSP cspString)
  /\ semiFree
       (directives (fst (run (fst (editCSP (deserializeCSP cspString))) lines))).
Proof.
  intros Hlines. split; [apply deserializeCSP_semiFree|].
  apply run_sessionOk; [|assumption].
  split; [apply deserializeCSP_semiFree|exact I].
Qed.

Lemma separator_free_tokens_witness :
  Forall (fun line => ~ In SEMI line) [str "1"; str "'self' https:"]
  /\ semiFree
       (directives
          (fst (run (fst (editCSP (deserializeCSP (str "img-src data:"))))
                  [str "1"; str "'self' https:"]))).
Proof.
  assert (H : Forall (fun line => ~ In SEMI line)
                [str "1"; str "'self' https:"]).
  { repeat constructor; vm_compute; intuition discriminate. }
  split; [exact H|].
  apply (separator_free_tokens (str "img-src data:")
           [str "1"; str "'self' https:"] H).
Defined.

(** C5 (as stated) fails: the editor stores what is typed.  Selecting the
    first directive of "a 1" and typing x;y leaves the value x;y. *)
Lemma separator_counterexample :
  directives (fst (run (fst (editCSP (deserializeCSP (str "a 1"))))
                     [str "1"; str "x;y"]))
  = [(str "a", [str "x;y"])]
  /\ ~ semiFree
         (directives (fst (run (fst (editCSP (deserializeCSP (str "a 1"))))
                             [str "1"; str "x;y"]))).
Proof.
  split; [reflexivity|]. intros H. vm_compute in H.
  inversion H as [|? ? Hx _]; subst. inversion Hx as [|? ? _ Hv]; subst.
  inversion Hv as [|? ? Hbad _]; subst. apply Hbad.
  right. left. reflexivity.
Qed.

(** C6 (as the program has it) - Replacing a value.  The line typed for the
    chosen directive is cut at space characters, and the maximal runs of
    other characters are its tokens, none of them empty.  The value sequence
    of the directive becomes exactly these tokens, also when there is none
    (a line of spaces only, or an empty line, gives the empty sequence), and
    the menu is shown again.  The directive set has no own property
    [__proto__], as is the case for every set this program builds. *)
Theorem edit_value_replacement (d : JSObject) (directive line : jsstr) :
  In directive (Object_keys d) ->
  ~ In PROTO (Object_keys d) ->
  editCSP_newValue d directive line
  = editCSP (setProp directive (splitSpaces line) d)
  /\ pending (fst (editCSP_newValue d directive line)) = MENU
  /\ getProp directive (directives (fst (editCSP_newValue d directive line)))
     = Some (splitSpaces line)
  /\ Forall (fun t => t <> [] /\ ~ In SPACE t) (splitSpaces line)
  /\ (splitSpaces line = [] <-> Forall (fun c => c = SPACE) line).
Proof.
  intros Hin Hproto.
  assert (E : editCSP_newValue d directive line
              = editCSP (setProp directive (splitSpaces line) d)).
  { unfold editCSP_newValue. now rewrite filter_split_spaces. }
  repeat apply conj.
  - exact E.
  - now rewrite E.
  - rewrite E, editCSP_session. cbn [directives].
    rewrite getProp_setProp by (intros ->; contradiction).
    now rewrite jsstr_eqb_refl.
  - apply Forall_forall. intros t Ht. split.
    + pose proof (tokens_nonempty (fun c => Ascii.eqb c SPACE) line) as Hne.
      rewrite Forall_forall in Hne. now apply Hne.
    + intros Hs. destruct (tokens_free _ _ _ _ Ht Hs) as [_ Hf].
      now rewrite Ascii.eqb_refl in Hf.
  - apply splitSpaces_nil.
  - apply splitSpaces_nil.
Qed.

Lemma edit_value_replacement_witness :
  In (str "img-src") (Object_keys (deserializeCSP (str "img-src data:")))
  /\ ~ In PROTO (Object_keys (deserializeCSP (str "img-src data:")))
  /\ getProp (str "img-src")
       (directives
          (fst (editCSP_newValue (deserializeCSP (str "img-src data:"))
                  (str "img-src") (str " 'self'  https: "))))
     = Some (splitSpaces (str " 'self'  https: ")).
Proof.
  assert (H1 : In (str "img-src")
                 (Object_keys (deserializeCSP (str "img-src data:"))))
    by (vm_compute; left; reflexivity).
  assert (H2 : ~ In PROTO (Object_keys (deserializeCSP (str "img-src data:"))))
    by (vm_compute; intuition discriminate).
  split; [exact H1|]. split; [exact H2|].
  apply (edit_value_replacement (deserializeCSP (str "img-src data:"))
           (str "img-src") (str " 'self'  https: ") H1 H2).
Defined.

(** C6 (as stated) fails: white space other than the space does not
    separate tokens.  The line x<TAB>y has the white-space tokens x and y,
    but the directive gets the single value x<TAB>y. *)
Lemma edit_value_tab_counterexample :
  splitWhitespace (str "x" ++ [TAB] ++ str "y") = [str "x"; str "y"]
  /\ directives
       (fst (run (fst (editCSP (deserializeCSP (str "a 1"))))
               [str "1"; str "x" ++ [TAB] ++ str "y"]))
     = [(str "a", [str "x" ++ [TAB] ++ str "y"])]
  /\ getProp (str "a")
       (directives
          (fst (editCSP_newValue (deserializeCSP (str "a 1")) (str "a")
                  (str "x" ++ [TAB] ++ str "y"))))
     <> Some (splitWhitespace (str "x" ++ [TAB] ++ str "y")).
Proof.
  split; [reflexivity|]. split; [reflexivity|]. vm_compute. discriminate.
Qed.

(** C7 (as the program has it) - Adding a directive.  The line is cut at
    space characters into its tokens.  With no token (the line is empty or
    made of spaces only) the invalid-directive notice is logged, the same
    question is asked again and the directive set is unchanged.  Otherwise
    the menu is shown for the set after the assignment of the remaining
    tokens to the first one; when that name is not [__proto__], it then has
    exactly those values, whether or not it was present, and every other
    name is as before. *)
Theorem add_directive_behaviour (d : JSObject) (line : jsstr) :
  (splitSpaces line = [] ->
     addDirective_newDirective d line
     = after (Log (str "Invalid directive. Please try again."))
             (addDirective d)
     /\ pending (fst (addDirective_newDirective d line)) = ADD_NAME
     /\ directives (fst (addDirective_newDirective d line)) = d)
  /\ (forall name values, splitSpaces line = name :: values ->
        addDirective_newDirective d line = editCSP (setProp name values d)
        /\ pending (fst (addDirective_newDirective d line)) = MENU
        /\ (name <> PROTO ->
            getProp name (directives (fst (addDirective_newDirective d line)))
            = Some values
            /\ forall other, other <> name ->
                 getProp other
                   (directives (fst (addDirective_newDirective d line)))
                 = getProp other d))
  /\ (splitSpaces line = [] <-> Forall (fun c => c = SPACE) line).
Proof.
  rewrite addDirective_newDirective_tokens. repeat apply conj.
  - intros ->. repeat split.
  - intros name values ->. rewrite editCSP_session. cbn [directives].
    split; [reflexivity|]. split; [reflexivity|]. intros Hp. split.
    + rewrite getProp_setProp by assumption. now rewrite jsstr_eqb_refl.
    + intros other Ho. rewrite getProp_setProp by assumption.
      apply jsstr_eqb_neq in Ho. now rewrite Ho.
  - apply splitSpaces_nil.
  - apply splitSpaces_nil.
Qed.

Lemma add_directive_behaviour_witness :
  splitSpaces (str "frame-ancestors 'none'")
  = [str "frame-ancestors"; str "'none'"]
  /\ str "frame-ancestors" <> PROTO
  /\ getProp (str "frame-ancestors")
       (directives
          (fst (addDirective_newDirective emptyObject
                  (str "frame-ancestors 'none'"))))
     = Some [str "'none'"].
Proof.
  assert (H1 : splitSpaces (str "frame-ancestors 'none'")
               = [str "frame-ancestors"; str "'none'"]) by reflexivity.
  assert (H2 : str "frame-ancestors" <> PROTO) by (vm_compute; discriminate).
  split; [exact H1|]. split; [exact H2|].
  apply (proj1 (proj2 (add_directive_behaviour emptyObject
                         (str "frame-ancestors 'none'")))
           (str "frame-ancestors") [str "'none'"] H1).
  exact H2.
Defined.

(** C7 (as stated) fails: a line that holds only a tab is white space
    only, yet it is taken as a directive name and the menu comes back. *)
Lemma add_directive_tab_counterexample :
  splitWhitespace [TAB] = []
  /\ addDirective_newDirective emptyObject [TAB] = editCSP [([TAB], [])]
  /\ pending (fst (addDirective_newDirective emptyObject [TAB])) <> ADD_NAME
  /\ directives (fst (addDirective_newDirective emptyObject [TAB]))
     <> emptyObject.
Proof.
  split; [reflexivity|]. split; [reflexivity|].
  split; vm_compute; discriminate.
Qed.

(** C8 - Zero-value directive.  Parsing "upgrade-insecure-requests;" gives
    the directive set with the one name [upgrade-insecure-requests] and an
    empty value sequence; serializing that set gives the name followed by
    the space that the template puts before the joined values. *)
Theorem zero_value_directive :
  deserializeCSP (str "upgrade-insecure-requests;")
  = [(str "upgrade-insecure-requests", [])]
  /\ serializeCSP (deserializeCSP (str "upgrade-insecure-requests;"))
     = str "upgrade-insecure-requests" ++ [SPACE]
  /\ deserializeCSP
       (serializeCSP (deserializeCSP (str "upgrade-insecure-requests;")))
     = [(str "upgrade-insecure-requests", [])].
Proof. repeat split; vm_compute; reflexivity. Qed.

(** C9 - Frame of value editing.  After an in-range selection at the menu
    (the callback then waits for the new value of [directive]), the
    replacement changes the value sequence of [directive] only: the names,
    their order and the values of all other directives stay as they are. *)
Theorem edit_value_frame (d : JSObject) (answer directive line : jsstr) :
  pending (fst (editCSP_answer d answer)) = EDIT_VALUE directive ->
  Object_keys (directives (fst (editCSP_newValue d directive line)))
  = Object_keys d
  /\ sameExceptAt directive d
       (directives (fst (editCSP_newValue d directive line)))
  /\ (forall other, other <> directive ->
        getProp other (directives (fst (editCSP_newValue d directive line)))
        = getProp other d).
Proof.
  intros H. apply editCSP_answer_pending in H.
  unfold editCSP_newValue. rewrite editCSP_session. cbn [directives].
  split; [|split].
  - unfold setProp. destruct (jsstr_eqb directive PROTO); [reflexivity|].
    apply hasOwn_In in H. rewrite H. apply keys_updateProp.
  - now apply setProp_sameExceptAt.
  - intros other Hother. unfold setProp.
    destruct (jsstr_eqb directive PROTO); [reflexivity|].
    pose proof H as Hown. apply hasOwn_In in Hown. rewrite Hown.
    rewrite getProp_updateProp by assumption.
    apply jsstr_eqb_neq in Hother. now rewrite Hother.
Qed.

Lemma edit_value_frame_witness :
  pending
    (fst (editCSP_answer
            (deserializeCSP (str "default-src 'self'; img-src 'self' data:"))
            (str "2")))
  = EDIT_VALUE (str "img-src")
  /\ Object_keys
       (directives
          (fst (editCSP_newValue
                  (deserializeCSP
                     (str "default-src 'self'; img-src 'self' data:"))
                  (str "img-src") (str "https:"))))
     = Object_keys
         (deserializeCSP (str "default-src 'self'; img-src 'self' data:")).
Proof.
  split; [reflexivity|].
  apply (edit_value_frame
           (deserializeCSP (str "default-src 'self'; img-src 'self' data:"))
           (str "2") (str "img-src") (str "https:")).
  reflexivity.
Defined.

(** C10 - Empty directive set.  [serializeCSP] maps the empty object to the
    empty string, and the empty object is what [getCSP] returns when the
    response has no policy header and when [fetch] fails. *)
Theorem serialize_empty_set (url message : jsstr) :
  serializeCSP emptyObject = []
  /\ fst (getCSP url (Response None)) = emptyObject
  /\ fst (getCSP url (FetchError message)) = emptyObject
  /\ serializeCSP (fst (getCSP url (Response None))) = []
  /\ serializeCSP (fst (getCSP url (FetchError message))) = [].
Proof. repeat split. Qed.

(** * Further properties of the program *)

(** X1 - The printed form of a parsed policy is a fixed point: for every
    policy string, parsing what [serializeCSP] prints for its directive set
    gives the same set, and printing that again gives the same text. *)
Theorem reparse_any_policy (cspString : jsstr) :
  deserializeCSP (serializeCSP (deserializeCSP cspString))
  = deserializeCSP cspString
  /\ serializeCSP
       (deserializeCSP (serializeCSP (deserializeCSP cspString)))
     = serializeCSP (deserializeCSP cspString).
Proof.
  assert (E : deserializeCSP (serializeCSP (deserializeCSP cspString))
              = deserializeCSP cspString)
    by apply deserialize_serialize, deserializeCSP_wf.
  split; [exact E|now rewrite E].
Qed.

(** X2 - Printing loses nothing: two policy strings whose directive sets
    print to the same text have the same directive set. *)
Theorem serialize_injective (S1 S2 : jsstr) :
  serializeCSP (deserializeCSP S1) = serializeCSP (deserializeCSP S2) ->
  deserializeCSP S1 = deserializeCSP S2.
Proof.
  intros H.
  rewrite <- (deserialize_serialize (deserializeCSP S1))
    by apply deserializeCSP_wf.
  rewrite H. apply deserialize_serialize, deserializeCSP_wf.
Qed.

Lemma serialize_injective_witness :
  serializeCSP (deserializeCSP (str "a  1 ;; b;"))
  = serializeCSP (deserializeCSP (str "a  1; b"))
  /\ deserializeCSP (str "a  1 ;; b;") = deserializeCSP (str "a  1; b").
Proof.
  split; [reflexivity|].
  apply (serialize_injective (str "a  1 ;; b;") (str "a  1; b")).
  reflexivity.
Defined.

(** X3 - A policy cut at a ';' is parsed part by part: the clauses of the
    second part are assigned on top of the directive set of the first, so
    a name has the values the second part gives it, and otherwise those of
    the first part. *)
Theorem parse_concatenation (a b n : jsstr) :
  deserializeCSP (a ++ SEMI :: b)
  = insertClauses (clauses b) (deserializeCSP a)
  /\ getProp n (deserializeCSP (a ++ SEMI :: b))
     = match getProp n (deserializeCSP b) with
       | Some v => Some v
       | None => getProp n (deserializeCSP a)
       end.
Proof.
  assert (E : deserializeCSP (a ++ SEMI :: b)
              = insertClauses (clauses b) (deserializeCSP a)).
  { rewrite !deserializeCSP_clauses, clauses_app. apply insertClauses_app. }
  split; [exact E|].
  destruct (list_eq_dec ascii_dec n PROTO) as [->|Hn].
  - now rewrite !getProp_PROTO by apply deserializeCSP_canonical.
  - rewrite E, (deserializeCSP_clauses b).
    rewrite !getProp_insertClauses_any by assumption.
    now destruct (lastValues n (clauses b)).
Qed.

(** X4 - Stray separators and blank clauses do not count: a ';' at the
    start or at the end of a policy string, and a clause of white space
    only between two separators, leave the directive set as it is without
    them. *)
Theorem blank_clauses_ignored (a w b : jsstr) :
  Forall (fun c => isWhiteSpace c = true) w ->
  deserializeCSP (a ++ SEMI :: w ++ SEMI :: b) = deserializeCSP (a ++ SEMI :: b)
  /\ deserializeCSP (a ++ SEMI :: w) = deserializeCSP a
  /\ deserializeCSP (w ++ SEMI :: b) = deserializeCSP b.
Proof.
  intros Hw. unfold deserializeCSP.
  now rewrite !pairs_app, (pairs_white w Hw), app_nil_r.
Qed.

Lemma blank_clauses_ignored_witness :
  Forall (fun c => isWhiteSpace c = true) [SPACE; TAB]
  /\ deserializeCSP (str "a 1" ++ SEMI :: [SPACE; TAB])
     = deserializeCSP (str "a 1").
Proof.
  assert (H : Forall (fun c => isWhiteSpace c = true) [SPACE; TAB])
    by (repeat constructor).
  split; [exact H|].
  apply (blank_clauses_ignored (str "a 1") [SPACE; TAB] [] H).
Defined.



(** X6 - The command letters are single letters in either case, nothing
    else: the menu callback ends the session exactly for the answers P, p,
    Q and q, and goes on to ask for a new directive exactly for A and a.  An
    answer with a space around the letter is not a command. *)
Theorem command_letters (d : JSObject) (answer : jsstr) :
  (pending (fst (editCSP_answer d answer)) = TERMINATED
   <-> answer = str "P" \/ answer = str "p"
       \/ answer = str "Q" \/ answer = str "q")
  /\ (pending (fst (editCSP_answer d answer)) = ADD_NAME
      <-> answer = str "A" \/ answer = str "a")
  /\ (isCommand answer = true
      <-> In answer [str "P"; str "p"; str "A"; str "a"; str "Q"; str "q"]).
Proof.
  pose proof (command_P answer) as HP. pose proof (command_A answer) as HA.
  pose proof (command_Q answer) as HQ.
  pose proof (editCSP_answer_number_pending d answer) as Hnum.
  unfold isCommand in *. unfold editCSP_answer.
  destruct (jsstr_eqb (toUpperCase answer) (str "P")) eqn:EP.
  { destruct (proj1 HP eq_refl) as [->| ->]; cbn [fst pending];
      (split; [split; [intros _; auto|reflexivity]|]);
      (split; [split; [discriminate|intros [H|H]; discriminate H]|]);
      (split; [intros _; simpl; auto 7|reflexivity]). }
  destruct (jsstr_eqb (toUpperCase answer) (str "A")) eqn:EA.
  { destruct (proj1 HA eq_refl) as [->| ->]; cbn [fst pending addDirective];
      (split; [split; [discriminate
                      |intros [H|[H|[H|H]]]; discriminate H]|]);
      (split; [split; [intros _; auto|reflexivity]|]);
      (split; [intros _; simpl; auto 7|reflexivity]). }
  destruct (jsstr_eqb (toUpperCase answer) (str "Q")) eqn:EQ.
  { destruct (proj1 HQ eq_refl) as [->| ->]; cbn [fst pending];
      (split; [split; [intros _; auto|reflexivity]|]);
      (split; [split; [discriminate|intros [H|H]; discriminate H]|]);
      (split; [intros _; simpl; auto 7|reflexivity]). }
  assert (HnP : ~ (answer = str "P" \/ answer = str "p"))
    by (intros H; apply HP in H; discriminate).
  assert (HnA : ~ (answer = str "A" \/ answer = str "a"))
    by (intros H; apply HA in H; discriminate).
  assert (HnQ : ~ (answer = str "Q" \/ answer = str "q"))
    by (intros H; apply HQ in H; discriminate).
  specialize (Hnum eq_refl). unfold editCSP_answer in Hnum.
  rewrite EP, EA, EQ in Hnum.
  repeat apply conj.
  - intros H. destruct Hnum as [E|[x E]]; rewrite E in H; discriminate.
  - tauto.
  - intros H. destruct Hnum as [E|[x E]]; rewrite E in H; discriminate.
  - tauto.
  - discriminate.
  - simpl. intros [H|[H|[H|[H|[H|[H|[]]]]]]]; symmetry in H; tauto.
Qed.

(** X7 - The file is written on P only.  One line of input makes the
    program write a file exactly when the menu is waiting and the line is P
    or p; the file is then generated_csp.txt and its content is the
    serialized directive set.  Neither Q, nor an edit, nor an addition, nor
    an invalid selection writes anything. *)
Theorem file_written_on_print_only (s : Session) (line path content : jsstr) :
  In (WriteFile path content) (snd (onLine s line))
  <-> pending s = MENU
      /\ (line = str "P" \/ line = str "p")
      /\ path = str "generated_csp.txt"
      /\ content = serializeCSP (directives s).
Proof.
  unfold onLine. destruct (pending s) as [|directive| |].
  - rewrite editCSP_answer_write. tauto.
  - split; [|intros [H _]; discriminate].
    intros H. exfalso. exact (editCSP_newValue_no_write _ _ _ _ _ H).
  - split; [|intros [H _]; discriminate].
    intros H. exfalso. exact (addDirective_newDirective_no_write _ _ _ _ H).
  - split; [intros []|intros [H _]; discriminate].
Qed.

(** X8 - What is in the file is the final directive set.  Over a whole
    script of input lines, from any session, a write to the file implies
    that the session has ended and that the content is the serialization of
    the directive set the session ended with: nothing typed after P changes
    what was saved. *)
Theorem file_holds_final_set (s : Session) (lines : list jsstr)
  (path content : jsstr) :
  In (WriteFile path content) (snd (run s lines)) ->
  pending (fst (run s lines)) = TERMINATED
  /\ path = str "generated_csp.txt"
  /\ content = serializeCSP (directives (fst (run s lines))).
Proof.
  revert s. induction lines as [|l ls IH]; intros s H; [destruct H|].
  simpl in H |- *.
  pose proof (onLine_write s l path content) as Hone.
  destruct (onLine s l) as [s1 out1] eqn:E1.
  specialize (IH s1).
  destruct (run s1 ls) as [s2 out2] eqn:E2.
  cbn [fst snd] in *. apply in_app_or in H. destruct H as [H|H].
  - apply Hone in H. destruct H as [Hm [Hl [-> ->]]].
    assert (Es1 : s1 = mkSession (directives s) TERMINATED).
    { unfold onLine in E1. rewrite Hm in E1.
      pose proof (editCSP_answer_P (directives s) l Hl) as HP.
      rewrite E1 in HP. exact HP. }
    subst s1. rewrite run_terminated in E2 by reflexivity.
    injection E2 as <- <-. repeat split.
  - exact (IH H).
Qed.

Lemma file_holds_final_set_witness :
  In (WriteFile (str "generated_csp.txt") (str "a 2"))
     (snd (run (fst (editCSP (deserializeCSP (str "a 1"))))
             [str "1"; str "2"; str "p"; str "1"]))
  /\ pending
       (fst (run (fst (editCSP (deserializeCSP (str "a 1"))))
               [str "1"; str "2"; str "p"; str "1"]))
     = TERMINATED.
Proof.
  assert (H : In (WriteFile (str "generated_csp.txt") (str "a 2"))
                (snd (run (fst (editCSP (deserializeCSP (str "a 1"))))
                        [str "1"; str "2"; str "p"; str "1"]))).
  { vm_compute. do 10 right. left. reflexivity. }
  split; [exact H|].
  apply (file_holds_final_set
           (fst (editCSP (deserializeCSP (str "a 1"))))
           [str "1"; str "2"; str "p"; str "1"]
           (str "generated_csp.txt") (str "a 2") H).
Defined.

(** X9 - Names stay unique for the whole session.  Whatever [fetch] gave
    and whatever is typed, the directive set never has two entries of one
    name and never an entry named [__proto__], and its names that are array
    indices come first, in ascending order. *)
Theorem names_unique_always (url : jsstr) (r : FetchResult)
  (lines : list jsstr) :
  NoDup (Object_keys
           (directives (fst (run (fst (editCSP (fst (getCSP url r)))) lines))))
  /\ ~ In PROTO
         (Object_keys
            (directives (fst (run (fst (editCSP (fst (getCSP url r)))) lines))))
  /\ StronglySorted keyOrder
       (Object_keys
          (directives (fst (run (fst (editCSP (fst (getCSP url r)))) lines)))).
Proof.
  assert (H : canonical
                (directives
                   (fst (run (fst (editCSP (fst (getCSP url r)))) lines)))).
  { apply run_canonical. rewrite editCSP_session. cbn [directives].
    apply getCSP_wf. }
  destruct H as [Hs [Hn Hp]]. repeat split; assumption.
Qed.

(** X10 - What is printed can be read back.  When no typed line contains a
    ';' or white space other than the space, then whatever [fetch] gave, the
    directive set at any point of the session is recovered by parsing its
    serialization; so the text that P prints and saves parses back to the
    directive set that was edited. *)
Theorem edited_policy_reparses (url : jsstr) (r : FetchResult)
  (lines : list jsstr) :
  Forall cleanLine lines ->
  deserializeCSP
    (serializeCSP
       (directives (fst (run (fst (editCSP (fst (getCSP url r)))) lines))))
  = directives (fst (run (fst (editCSP (fst (getCSP url r)))) lines)).
Proof.
  intros Hlines. apply deserialize_serialize.
  apply run_sessionWf; [|assumption].
  rewrite editCSP_session. split; [apply getCSP_wf|exact I].
Qed.

Lemma edited_policy_reparses_witness :
  Forall cleanLine [str "A"; str "img-src  'self' data:"; str "1"; str "https:"]
  /\ deserializeCSP
       (serializeCSP
          (directives
             (fst (run (fst (editCSP
                               (fst (getCSP (str "https://example.com")
                                       (Response None)))))
                     [str "A"; str "img-src  'self' data:"; str "1";
                      str "https:"]))))
     = [(str "img-src", [str "https:"])].
Proof.
  assert (H : Forall cleanLine
                [str "A"; str "img-src  'self' data:"; str "1"; str "https:"])
    by (repeat (apply Forall_cons; [apply cleanLine_check; reflexivity|]);
        apply Forall_nil).
  split; [exact H|].
  rewrite (edited_policy_reparses (str "https://example.com") (Response None)
             [str "A"; str "img-src  'self' data:"; str "1"; str "https:"] H).
  reflexivity.
Defined.

(** X11 - Nothing is ever deleted.  A directive that is in the set stays in
    it for the rest of the session, whatever is typed: the editor can
    replace or empty the values of a name, and add names, but it has no way
    to remove one. *)
Theorem directive_never_removed (s : Session) (lines : list jsstr)
  (name : jsstr) :
  In name (Object_keys (directives s)) ->
  In name (Object_keys (directives (fst (run s lines)))).
Proof.
  revert s. induction lines as [|l ls IH]; intros s H; [exact H|].
  simpl. pose proof (onLine_keeps_names s l name H) as H1.
  destruct (onLine s l) as [s1 out1]. specialize (IH s1 H1).
  destruct (run s1 ls) as [s2 out2]. exact IH.
Qed.

Lemma directive_never_removed_witness :
  In (str "a") (Object_keys (directives (fst (editCSP (deserializeCSP (str "a 1"))))))
  /\ In (str "a")
       (Object_keys
          (directives
             (fst (run (fst (editCSP (deserializeCSP (str "a 1"))))
                     [str "1"; []; str "A"; str "0 x"])))).
Proof.
  assert (H : In (str "a")
                (Object_keys
                   (directives (fst (editCSP (deserializeCSP (str "a 1")))))))
    by (vm_compute; left; reflexivity).
  split; [exact H|].
  apply (directive_never_removed
           (fst (editCSP (deserializeCSP (str "a 1"))))
           [str "1"; []; str "A"; str "0 x"] (str "a") H).
Defined.

(** X12 - When the set grows.  One line of input leaves the number of
    directives as it is or raises it by one, and it raises it exactly when
    the program is waiting for a new directive and the first token of the
    line is a name that is not yet in the set and is not [__proto__]. *)
Theorem directive_count_step (s : Session) (line : jsstr) :
  pendingOk s ->
  (List.length (Object_keys (directives (fst (onLine s line))))
   = List.length (Object_keys (directives s))
   \/ List.length (Object_keys (directives (fst (onLine s line))))
      = S (List.length (Object_keys (directives s))))
  /\ (List.length (Object_keys (directives (fst (onLine s line))))
      = S (List.length (Object_keys (directives s)))
      <-> pending s = ADD_NAME
          /\ exists name values,
               splitSpaces line = name :: values
               /\ name <> PROTO
               /\ ~ In name (Object_keys (directives s))).
Proof.
  intros Hok.
  assert (Hsame : forall d : JSObject,
            List.length (Object_keys d) <> S (List.length (Object_keys d)))
    by (intros d; lia).
  unfold pendingOk in Hok. unfold onLine.
  destruct (pending s) as [|directive| |] eqn:Ep.
  - rewrite editCSP_answer_directives. split; [now left|].
    split; [intros H; now apply Hsame in H|intros [H _]; discriminate].
  - unfold editCSP_newValue. rewrite editCSP_session. cbn [directives].
    destruct (keys_setProp_cases directive
                (filter truthy (split SPACE line)) (directives s))
      as [[_ E]|[[_ Hn] _]]; [|contradiction].
    rewrite E. split; [now left|].
    split; [intros H; now apply Hsame in H|intros [H _]; discriminate].
  - rewrite addDirective_newDirective_tokens.
    destruct (splitSpaces line) as [|name values] eqn:El.
    + cbn [fst after addDirective directives]. split; [now left|].
      split; [intros H; now apply Hsame in H|].
      intros [_ [n [v [H _]]]]. discriminate.
    + rewrite editCSP_session. cbn [directives].
      destruct (keys_setProp_cases name values (directives s))
        as [[Hin E]|[[Hp Hn] P]].
      * rewrite E. split; [now left|].
        split; [intros H; now apply Hsame in H|].
        intros [_ [n [v [[= <- <-] [Hp Hn]]]]]. tauto.
      * apply Permutation_length in P. simpl in P. rewrite <- P.
        split; [now right|]. split; [|reflexivity].
        intros _. split; [reflexivity|]. now exists name, values.
  - cbn [fst]. split; [now left|].
    split; [intros H; now apply Hsame in H|intros [H _]; discriminate].
Qed.

Lemma directive_count_step_witness :
  pendingOk (mkSession (deserializeCSP (str "a 1")) ADD_NAME)
  /\ List.length
       (Object_keys
          (directives
             (fst (onLine (mkSession (deserializeCSP (str "a 1")) ADD_NAME)
                     (str "b 2")))))
     = 2.
Proof.
  assert (H : pendingOk (mkSession (deserializeCSP (str "a 1")) ADD_NAME))
    by exact I.
  split; [exact H|].
  apply (proj2 (proj2 (directive_count_step
                         (mkSession (deserializeCSP (str "a 1")) ADD_NAME)
                         (str "b 2") H))).
  split; [reflexivity|].
  exists (str "b"), [str "2"]. split; [reflexivity|].
  split; [vm_compute; discriminate|vm_compute; intuition discriminate].
Defined.

(** X13 - The last value typed is the one that stays.  Assigning twice to
    one name gives what the second assignment alone gives, place included;
    so replacing the values of a directive twice, or adding a directive and
    then adding it again, is the same as doing only the second. *)
Theorem last_assignment_wins (d : JSObject) (directive line1 line2 : jsstr) :
  editCSP_newValue
    (directives (fst (editCSP_newValue d directive line1))) directive line2
  = editCSP_newValue d directive line2
  /\ (forall name values1 values2,
        splitSpaces line1 = name :: values1 ->
        splitSpaces line2 = name :: values2 ->
        addDirective_newDirective
          (directives (fst (addDirective_newDirective d line1))) line2
        = addDirective_newDirective d line2).
Proof.
  split.
  - unfold editCSP_newValue. rewrite editCSP_session. cbn [directives].
    now rewrite setProp_twice.
  - intros name values1 values2 H1 H2.
    rewrite !addDirective_newDirective_tokens, H1, H2.
    rewrite editCSP_session. cbn [directives]. now rewrite setProp_twice.
Qed.

Lemma last_assignment_wins_witness :
  splitSpaces (str "img-src data:") = [str "img-src"; str "data:"]
  /\ splitSpaces (str "img-src 'self'") = [str "img-src"; str "'self'"]
  /\ addDirective_newDirective
       (directives
          (fst (addDirective_newDirective (deserializeCSP (str "a 1"))
                  (str "img-src data:"))))
       (str "img-src 'self'")
     = addDirective_newDirective (deserializeCSP (str "a 1"))
         (str "img-src 'self'").
Proof.
  assert (H1 : splitSpaces (str "img-src data:")
               = [str "img-src"; str "data:"]) by reflexivity.
  assert (H2 : splitSpaces (str "img-src 'self'")
               = [str "img-src"; str "'self'"]) by reflexivity.
  split; [exact H1|]. split; [exact H2|].
  apply (proj2 (last_assignment_wins (deserializeCSP (str "a 1")) []
                  (str "img-src data:") (str "img-src 'self'"))
           (str "img-src") [str "data:"] [str "'self'"] H1 H2).
Defined.

(** X14 - The number shown selects.  The line that the menu prints for the
    directive at position [i] (from 0) starts with the decimal text of
    [i + 1], and answering the menu with that text makes the program wait
    for the new value of that very directive. *)
Theorem shown_number_selects (d : JSObject) (i : nat) :
  i < List.length d ->
  nth (S i) (snd (editCSP d)) Exit
  = Log (showNat (i + 1) ++ str ": " ++ [ESC] ++ str "[33m"
         ++ fst (nth i d ([], [])) ++ [ESC] ++ str "[0m - "
         ++ join [SPACE] (snd (nth i d ([], []))))
  /\ editCSP_answer d (showNat (i + 1))
     = (mkSession d (EDIT_VALUE (fst (nth i d ([], [])))),
        [Question (editQuery d (fst (nth i d ([], []))))]).
Proof.
  intros Hi. split.
  - unfold editCSP. cbn [snd nth]. unfold Object_entries.
    assert (Hl : i < List.length (entryLines 0 d))
      by (rewrite entryLines_length; exact Hi).
    rewrite (app_nth1 _ _ Exit Hl).
    rewrite entryLines_nth by exact Hi. reflexivity.
  - rewrite editCSP_answer_number
      by (apply digits_not_command, Number_toString_digits).
    unfold showNat. rewrite parseInt_Number_toString.
    assert (Hlen : List.length (Object_keys d) = List.length d)
      by apply length_map.
    replace ((1 <=? Z.of_N (N.of_nat (i + 1)))
             && (Z.of_N (N.of_nat (i + 1))
                 <=? Z.of_nat (List.length (Object_keys d))))%Z with true
      by (symmetry; apply andb_true_intro; split; apply Z.leb_le; lia).
    replace (Z.to_nat (Z.of_N (N.of_nat (i + 1)) - 1)) with i by lia.
    now rewrite keys_nth.
Qed.

Lemma shown_number_selects_witness :
  1 < List.length (deserializeCSP (str "default-src 'self'; img-src data:"))
  /\ editCSP_answer (deserializeCSP (str "default-src 'self'; img-src data:"))
       (showNat (1 + 1))
     = (mkSession (deserializeCSP (str "default-src 'self'; img-src data:"))
          (EDIT_VALUE
             (fst (nth 1
                     (deserializeCSP (str "default-src 'self'; img-src data:"))
                     ([], [])))),
        [Question
           (editQuery
              (deserializeCSP (str "default-src 'self'; img-src data:"))
              (fst (nth 1
                      (deserializeCSP
                         (str "default-src 'self'; img-src data:"))
                      ([], []))))]).
Proof.
  assert (H : 1 < List.length
                    (deserializeCSP (str "default-src 'self'; img-src data:")))
    by (vm_compute; lia).
  split; [exact H|].
  apply (shown_number_selects
           (deserializeCSP (str "default-src 'self'; img-src data:")) 1 H).
Defined.

(** X15 - Answers that cannot be numbers.  An answer to the menu that is
    empty, or that starts with a character other than a digit, a plus sign
    or white space, is an invalid selection unless it is one of the command
    letters: the notice is logged and the menu is shown again for the
    unchanged set.  This includes every answer that starts with a minus
    sign. *)
Theorem non_numeric_answer_invalid (d : JSObject) (answer : jsstr) :
  isCommand answer = false ->
  match answer with
  | [] => True
  | c :: _ =>
      isWhiteSpace c = false /\ isDigit c = false /\ c <> ascii_of_N 43
  end ->
  editCSP_answer d answer
  = after (Log (str "Invalid selection. Please try again.")) (editCSP d).
Proof.
  intros Hc Hshape. rewrite editCSP_answer_number by assumption.
  destruct answer as [|c t]; [reflexivity|].
  destruct Hshape as [Hw [Hd Hp]].
  destruct (ascii_dec c MINUS) as [->|Hm].
  - pose proof (parseInt_minus t) as H.
    destruct (parseInt (MINUS :: t)) as [k|]; [|reflexivity].
    replace (1 <=? k)%Z with false; [reflexivity|].
    symmetry. apply Z.leb_gt. lia.
  - now rewrite parseInt_nondigit.
Qed.

Lemma non_numeric_answer_invalid_witness :
  isCommand (str "-1") = false
  /\ (isWhiteSpace MINUS = false /\ isDigit MINUS = false
      /\ MINUS <> ascii_of_N 43)
  /\ editCSP_answer (deserializeCSP (str "a 1")) (str "-1")
     = after (Log (str "Invalid selection. Please try again."))
             (editCSP (deserializeCSP (str "a 1"))).
Proof.
  assert (H1 : isCommand (str "-1") = false) by reflexivity.
  assert (H2 : isWhiteSpace MINUS = false /\ isDigit MINUS = false
               /\ MINUS <> ascii_of_N 43)
    by (repeat split; discriminate).
  split; [exact H1|]. split; [exact H2|].
  apply (non_numeric_answer_invalid (deserializeCSP (str "a 1")) (str "-1")
           H1 H2).
Defined.

(** X16 - Blank lines do not leave the add prompt.  While the program
    waits for a new directive, any number of lines that are empty or made of
    spaces only leaves it waiting, with the directive set unchanged; each
    such line is answered by the invalid-directive notice and the same
    question. *)
Theorem blank_lines_reprompt (d : JSObject) (lines : list jsstr) :
  Forall (fun line => Forall (fun c => c = SPACE) line) lines ->
  run (mkSession d ADD_NAME) lines
  = (mkSession d ADD_NAME,
     flat_map
       (fun _ => [Log (str "Invalid directive. Please try again.");
                  Question addQuery])
       lines).
Proof.
  induction 1 as [|l ls Hl _ IH]; [reflexivity|].
  cbn [run]. unfold onLine. cbn [pending directives].
  rewrite addDirective_newDirective_tokens.
  apply splitSpaces_nil in Hl. rewrite Hl.
  cbn [after addDirective fst snd]. rewrite IH. reflexivity.
Qed.

Lemma blank_lines_reprompt_witness :
  Forall (fun line => Forall (fun c => c = SPACE) line) [[]; str "  "]
  /\ fst (run (mkSession (deserializeCSP (str "a 1")) ADD_NAME)
            [[]; str "  "])
     = mkSession (deserializeCSP (str "a 1")) ADD_NAME.
Proof.
  assert (H : Forall (fun line => Forall (fun c => c = SPACE) line)
                [[]; str "  "])
    by (repeat constructor).
  split; [exact H|].
  rewrite (blank_lines_reprompt (deserializeCSP (str "a 1")) [[]; str "  "] H).
  reflexivity.
Defined.

(** X17 - The two copies of the script drive the same session.  For every
    session and every script of input lines, the earlier copy ends in the
    same state with the same directive set as [getcsp.js]; what differs is
    only what is emitted at the end: the earlier copy logs, asks and closes
    the interface, but never writes a file and never leaves the process by
    itself. *)
Theorem earlier_copy_agrees (s : Session) (lines : list jsstr) :
  fst (Part001.run s lines) = fst (run s lines)
  /\ Forall (fun e => match e with
                      | Log _ | Question _ | Close => True
                      | _ => False
                      end) (snd (Part001.run s lines)).
Proof.
  revert s. induction lines as [|l ls IH]; intros s.
  - split; [reflexivity|constructor].
  - cbn [Part001.run run].
    pose proof (Part001_onLine_session s l) as E1.
    pose proof (Part001_onLine_dialogue s l) as D1.
    destruct (Part001.onLine s l) as [s1 out1].
    destruct (onLine s l) as [s1' out1']. cbn [fst snd] in E1, D1. subst s1'.
    destruct (IH s1) as [E2 D2].
    destruct (Part001.run s1 ls) as [s2 out2].
    destruct (run s1 ls) as [s2' out2']. cbn [fst snd] in *.
    split; [exact E2|]. apply Forall_app. now split.
Qed.

(** X18 - Fetch, then print.  With a URL on the command line and a response
    that carries a nonempty policy header, the script shows the menu for the
    parsed policy; answering P at once writes to generated_csp.txt a text
    that parses to the same directive set as the header.  Without a URL, or
    with an empty one, the script logs its usage line, closes the interface
    and asks nothing, whatever the response would be. *)
Theorem fetch_then_print (url cspString : jsstr) (r : FetchResult) :
  url <> [] -> cspString <> [] ->
  main (Some url) (Response (Some cspString))
  = (Some (mkSession (deserializeCSP cspString) MENU),
     snd (editCSP (deserializeCSP cspString)))
  /\ In (WriteFile (str "generated_csp.txt")
           (serializeCSP (deserializeCSP cspString)))
        (snd (run (mkSession (deserializeCSP cspString) MENU) [str "P"]))
  /\ deserializeCSP (serializeCSP (deserializeCSP cspString))
     = deserializeCSP cspString
  /\ main None r = (None, [Log (str "Please provide a URL as an argument"); Close])
  /\ main (Some []) r = main None r.
Proof.
  intros Hu Hc. apply truthy_nonempty in Hu. apply truthy_nonempty in Hc.
  repeat apply conj.
  - unfold main, getCSP. now rewrite Hu, Hc.
  - cbn [run]. unfold onLine. cbn [pending directives].
    destruct (editCSP_answer (deserializeCSP cspString) (str "P"))
      as [s1 out1] eqn:E.
    cbn [snd]. rewrite app_nil_r.
    assert (Hin : In (WriteFile (str "generated_csp.txt")
                        (serializeCSP (deserializeCSP cspString)))
                    (snd (editCSP_answer (deserializeCSP cspString) (str "P")))).
    { apply editCSP_answer_write. split; [now left|now split]. }
    now rewrite E in Hin.
  - apply deserialize_serialize, deserializeCSP_wf.
  - reflexivity.
  - reflexivity.
Qed.

Lemma fetch_then_print_witness :
  str "https://example.com" <> []
  /\ str "img-src data:;" <> []
  /\ main (Some (str "https://example.com"))
       (Response (Some (str "img-src data:;")))
     = (Some (mkSession (deserializeCSP (str "img-src data:;")) MENU),
        snd (editCSP (deserializeCSP (str "img-src data:;")))).
Proof.
  assert (H1 : str "https://example.com" <> []) by discriminate.
  assert (H2 : str "img-src data:;" <> []) by discriminate.
  split; [exact H1|]. split; [exact H2|].
  apply (fetch_then_print (str "https://example.com") (str "img-src data:;")
           (Response None) H1 H2).
Defined.

(** X19 - The directive set of any policy string.  Whatever the names are:
    a name is in the set exactly when some clause has it and it is not
    [__proto__]; each name has the values of its last clause; the names
    that are not array indices appear in the order of their first
    occurrence in the policy string, after the names that are array
    indices. *)
Theorem parsed_set_of_any_policy (cspString n : jsstr) :
  (In n (Object_keys (deserializeCSP cspString))
   <-> In n (map fst (clauses cspString)) /\ n <> PROTO)
  /\ getProp n (deserializeCSP cspString)
     = (if jsstr_eqb n PROTO then None
        else lastValues n (clauses cspString))
  /\ filter notIndex (Object_keys (deserializeCSP cspString))
     = firstOccurrences (filter ordinary (map fst (clauses cspString)))
  /\ StronglySorted keyOrder (Object_keys (deserializeCSP cspString)).
Proof.
  repeat apply conj.
  - intros H. rewrite deserializeCSP_clauses in H.
    apply in_keys_insertClauses in H. destruct H as [[]|H]. exact H.
  - intros H. rewrite deserializeCSP_clauses. apply in_keys_insertClauses.
    now right.
  - destruct (jsstr_eqb n PROTO) eqn:E.
    + apply jsstr_eqb_eq in E. subst.
      apply getProp_PROTO, deserializeCSP_canonical.
    + apply jsstr_eqb_neq in E.
      rewrite deserializeCSP_clauses, getProp_insertClauses_any by assumption.
      now destruct (lastValues n (clauses cspString)).
  - rewrite deserializeCSP_clauses, plain_keys_insertClauses. simpl.
    induction (firstOccurrences (filter ordinary (map fst (clauses cspString))))
      as [|x l IH]; [reflexivity|]. simpl. now rewrite IH.
  - apply deserializeCSP_canonical.
Qed.

(** X20 - Text around a number is overlooked.  White space before a
    number, and any text after it that does not start with a digit or with
    an x, do not matter at the menu: such an answer is treated exactly as
    the number alone, so it selects the same directive or is as invalid. *)
Theorem number_with_text_selects (d : JSObject) (n : nat) (w t : jsstr) :
  Forall (fun c => isWhiteSpace c = true) w ->
  match t with
  | [] => True
  | x :: _ => isDigit x = false /\ x <> ascii_of_N 120 /\ x <> ascii_of_N 88
  end ->
  editCSP_answer d (w ++ showNat n ++ t) = editCSP_answer d (showNat n).
Proof.
  intros Hw Ht.
  assert (Hnc : isCommand (w ++ showNat n ++ t) = false).
  { unfold showNat.
    pose proof (Number_toString_digits (N.of_nat n)) as Hd.
    pose proof (Number_toString_nonempty (N.of_nat n)) as Hne.
    destruct w as [|c w'].
    - destruct (Number_toString (N.of_nat n)) as [|c s]; [congruence|].
      inversion Hd; subst. cbn [app].
      apply not_command_head; apply digit_not_letter; (assumption || lia).
    - inversion Hw; subst. cbn [app].
      apply not_command_head; apply white_not_letter; (assumption || lia). }
  rewrite editCSP_answer_number by exact Hnc.
  rewrite editCSP_answer_number
    by (apply digits_not_command, Number_toString_digits).
  rewrite parseInt_skips_white by exact Hw. unfold showNat.
  rewrite parseInt_number_then_text by exact Ht.
  now rewrite parseInt_Number_toString.
Qed.

Lemma number_with_text_selects_witness :
  Forall (fun c => isWhiteSpace c = true) [SPACE; TAB]
  /\ (isDigit (ascii_of_N 46) = false
      /\ ascii_of_N 46 <> ascii_of_N 120 /\ ascii_of_N 46 <> ascii_of_N 88)
  /\ editCSP_answer (deserializeCSP (str "default-src 'self'; img-src data:"))
       ([SPACE; TAB] ++ showNat 2 ++ str ". img-src")
     = editCSP_answer
         (deserializeCSP (str "default-src 'self'; img-src data:"))
         (showNat 2).
Proof.
  assert (H2 : Forall (fun c => isWhiteSpace c = true) [SPACE; TAB])
    by (repeat constructor).
  assert (H3 : isDigit (ascii_of_N 46) = false
               /\ ascii_of_N 46 <> ascii_of_N 120
               /\ ascii_of_N 46 <> ascii_of_N 88)
    by (repeat split; discriminate).
  split; [exact H2|]. split; [exact H3|].
  apply (number_with_text_selects
           (deserializeCSP (str "default-src 'self'; img-src data:")) 2
           [SPACE; TAB] (str ". img-src") H2 H3).
Defined.
